(** * unlike.py: comparing two folder crawls

    A shallow embedding of [src/unlike.py] and the properties of its
    reconciliation ([FolderMerger.merge]), of its crawler ([FolderCrawler])
    and of its ignore-list filter ([filter_out_ignored_files]).

    A Python string is the Rocq string of the bytes of its UTF-8 encoding:
    comparing two such strings byte by byte orders them as Python orders the
    strings, code point by code point. Python lists are lists, a [dict] is an
    association list in insertion order (the order in which [dict.values()]
    and [dict.keys()] iterate), and sets of canonical names are [gset string].
    The calls the program makes into the Python library ([os.path], [os.walk],
    [os.stat], [open], [re.search], [str.lower], [str.strip]) are operations
    of four interfaces; a POSIX instance of each is given further down and
    used by the examples. *)

From Stdlib Require Import Ascii String.
From stdpp Require Import base option list sets gmap strings pretty sorting.

Local Open Scope string_scope.
Local Open Scope list_scope.

(** ** The library interfaces the program calls *)

(** [os.stat_result], reduced to three of its fields; the program stores it
    and never reads it. *)
Record stat_result := mkStat { st_mode : N; st_size : N; st_mtime : N }.

(** [os.path]: [join] and [relpath path start]. *)
Class OsPath := {
  os_path_join : string → string → string;
  os_path_relpath : string → string → string
}.

(** The exceptions the program can end with: [OSError] of [os.stat] and
    [open], [AttributeError] of an attribute access, [re.error] of a pattern
    that does not compile. *)
Inductive exn :=
  | OSError (filename : string)
  | AttributeError
  | ReError (pattern : string).

(** A computation that returns or raises. *)
Definition result (A : Type) : Type := exn + A.

Global Instance result_ret : MRet result := λ A x, inr x.
Global Instance result_bind : MBind result := λ A B f r,
  match r with
  | inl e => inl e
  | inr x => f x
  end.
Global Instance result_fmap : FMap result := λ A B f r,
  match r with
  | inl e => inl e
  | inr x => inr (f x)
  end.

(** [re.search pat s is not None], or the [re.error] the call raises. *)
Class Regex := {
  re_search : string → string → result bool
}.

(** The two methods of [str] the program calls. *)
Class Str := {
  str_lower : string → string;
  str_strip : string → string
}.

(** The file system during one run: [os.walk top] as the list of the triples
    it yields, [os.stat] ([None]: the call raises [OSError]) and the lines of
    a text file as iterating an [open]ed file yields them ([None]: [open]
    raises [OSError]). *)
Class FileSystem := {
  os_walk : string → list (string * list string * list string);
  os_stat : string → option stat_result;
  open_lines : string → option (list string)
}.

(** ** Python values and exceptions *)

(** [FileInfo = namedtuple('FileInfo', ['path', 'file', 'info'])] *)
Record FileInfo := mkFileInfo { path : string; file : string; info : stat_result }.

(** The signature of a filter of the chain: relative directory and file name
    to "keep this file", or the exception the call raises. *)
Definition filter_fn : Type := string → string → result bool.

(** The Python values that reach the two dynamically typed places of the
    program: the argument of [add_filter] and the entries of a bucket. *)
Inductive pyval :=
  | PyNone
  | PyStr (s : string)
  | PyFileInfo (fi : FileInfo)
  | PyFunc (f : filter_fn).

Definition callable (v : pyval) : bool :=
  match v with PyFunc _ => true | _ => false end.

(** Attribute access [v.path] and [v.file]: only a [FileInfo] has them. *)
Definition getattr_path (v : pyval) : result string :=
  match v with PyFileInfo fi => inr (path fi) | _ => inl AttributeError end.

Definition getattr_file (v : pyval) : result string :=
  match v with PyFileInfo fi => inr (file fi) | _ => inl AttributeError end.

(** ** Insertion-ordered dictionaries *)

Abbreviation dict V := (list (string * V)).

Fixpoint dict_get {V} (k : string) (m : dict V) : option V :=
  match m with
  | [] => None
  | (k', v) :: m' => if decide (k' = k) then Some v else dict_get k m'
  end.

(** [m[k] = f(m[k])] on a [defaultdict] whose factory returns [d]: an absent
    key is created at the end with [f d], a present one is updated in place.
    With [f] constant it is the plain [m[k] = v]. *)
Fixpoint dict_upd {V} (d : V) (f : V → V) (k : string) (m : dict V) : dict V :=
  match m with
  | [] => [(k, f d)]
  | (k', v) :: m' =>
      if decide (k' = k) then (k', f v) :: m' else (k', v) :: dict_upd d f k m'
  end.

(** ** FolderMerger: the reconciliation (lines 24-46) *)

(** What iterating a crawler yields, with the crawler's [root]. *)
Record enumeration := mkEnum { enum_root : string; enum_files : list FileInfo }.

Definition _get_canonical_name `{OsPath} (fi : FileInfo) (base : string) : string :=
  os_path_relpath (os_path_join (path fi) (file fi)) base.

(** A value of [file_map]: the two-element list [[None, None]] whose slot [i]
    receives the record of tree [i]. *)
Definition slots : Type := option FileInfo * option FileInfo.

(** [t[i] = fi], for the two indices [enumerate] produces. *)
Definition set_slot (i : nat) (fi : FileInfo) (t : slots) : slots :=
  match i with
  | 0 => (Some fi, t.2)
  | _ => (t.1, Some fi)
  end.

(** The inner loop of lines 32-34 for tree number [i]. *)
Definition fill_file_map `{OsPath} (i : nat) (e : enumeration) (m : dict slots) : dict slots :=
  foldl (λ m fi,
           dict_upd (None, None) (set_slot i fi)
                    (_get_canonical_name fi (enum_root e)) m)
        m (enum_files e).

(** Lines 29-34: [enumerate([self.left, self.right])]. *)
Definition build_file_map `{OsPath} (left right : enumeration) : dict slots :=
  fill_file_map 1 right (fill_file_map 0 left []).

Record buckets := mkBuckets {
  left_only : list FileInfo;
  right_only : list FileInfo;
  both : list string
}.

(** The body of the loop of lines 40-46. A value with both slots empty does
    not occur ([file_map_slots_filled] below): an entry is created by the
    assignment that fills one of its slots. *)
Definition classify_step `{OsPath} (b : buckets) (t : slots) : buckets :=
  match t with
  | (None, Some r) => mkBuckets (left_only b) (right_only b ++ [r]) (both b)
  | (None, None) => b
  | (Some l, None) => mkBuckets (left_only b ++ [l]) (right_only b) (both b)
  | (Some l, Some r) =>
      mkBuckets (left_only b) (right_only b)
                (both b ++ [os_path_join (path r) (file r)])
  end.

(** Lines 36-46. *)
Definition classify `{OsPath} (file_map : dict slots) : buckets :=
  foldl classify_step (mkBuckets [] [] []) file_map.*2.

Definition merge_buckets `{OsPath} (left right : enumeration) : buckets :=
  classify (build_file_map left right).

(** The numbers of lines 93 and 94. *)
Definition total_by_len `{OsPath} (left right : enumeration) : nat :=
  length (build_file_map left right).*1.

Definition total_by_sum (b : buckets) : nat :=
  length (left_only b) + length (right_only b) + length (both b).

(** The canonical names of a tree, and those of the entries of each bucket:
    a record of [left_only] is a record of the left tree, a record of
    [right_only] and a path of [both] come from the right tree. *)
Definition canonical_names `{OsPath} (e : enumeration) : gset string :=
  list_to_set ((λ fi, _get_canonical_name fi (enum_root e)) <$> enum_files e).

Definition left_only_names `{OsPath} (left : enumeration) (b : buckets) : list string :=
  (λ fi, _get_canonical_name fi (enum_root left)) <$> left_only b.

Definition right_only_names `{OsPath} (right : enumeration) (b : buckets) : list string :=
  (λ fi, _get_canonical_name fi (enum_root right)) <$> right_only b.

Definition both_names `{OsPath} (right : enumeration) (b : buckets) : list string :=
  (λ s, os_path_relpath s (enum_root right)) <$> both b.

(** ** Printing *)

(** A computation that prints: the lines written to standard output so far
    are threaded through, and are kept when an exception ends the run. *)
Definition M (A : Type) : Type := list string → list string * result A.

Global Instance M_ret : MRet M := λ A x out, (out, inr x).
Global Instance M_bind : MBind M := λ A B f c out,
  match c out with
  | (out', inl e) => (out', inl e)
  | (out', inr x) => f x out'
  end.

Definition lift {A} (r : result A) : M A := λ out, (out, r).

(** [print(s)] *)
Definition print (s : string) : M unit := λ out, (out ++ [s], inr tt).

(** [for x in l: body(x)] *)
Fixpoint for_each {A} (l : list A) (body : A → M unit) : M unit :=
  match l with
  | [] => mret tt
  | x :: l' => body x;; for_each l' body
  end.

(** ** [sorted] *)

(** [sorted(l, key=...)] on entries already paired with their keys. Python
    compares strings by code point and its sort is stable: an entry goes
    before the first entry whose key is not smaller than its own, so entries
    with equal keys keep the order they had in [l]. *)
Fixpoint sorted_insert {A} (x : string * A) (l : list (string * A)) : list (string * A) :=
  match l with
  | [] => [x]
  | y :: l' => if String.leb x.1 y.1 then x :: l else y :: sorted_insert x l'
  end.

Definition sorted_keyed {A} (l : list (string * A)) : list (string * A) :=
  foldr sorted_insert [] l.

(** ** FolderMerger.merge: rendering (lines 48-94) *)

(** The tab of the format string ['\t {}']. *)
Definition TAB : string := String (ascii_of_nat 9) EmptyString.

(** The key of lines 52, 66 and 80:
    [lambda li: os.path.join(li.path, li.file).lower()]. *)
Definition sort_key `{OsPath, Str} (li : pyval) : result string :=
  p ← getattr_path li;
  f ← getattr_file li;
  mret (str_lower (os_path_join p f)).

(** [sorted(bucket, key=sort_key)]: the keys are computed first, one call per
    entry, and a call that raises ends the run before anything is sorted. *)
Definition sorted_bucket `{OsPath, Str} (bucket : list pyval) : result (list pyval) :=
  keys ← mapM sort_key bucket;
  mret (sorted_keyed (zip keys bucket)).*2.

(** The loop over the sorted entries (lines 52-56): [folders] is the
    [defaultdict(int)] of line 51. *)
Fixpoint render_entries `{OsPath} (summarize : bool) (entries : list pyval)
    (folders : dict nat) : M (dict nat) :=
  match entries with
  | [] => mret folders
  | f :: rest =>
      if summarize then
        p ← lift (getattr_path f);
        render_entries summarize rest (dict_upd 0 S p folders)
      else
        p ← lift (getattr_path f);
        n ← lift (getattr_file f);
        print (TAB +:+ " " +:+ os_path_join p n);;
        render_entries summarize rest folders
  end.

(** Lines 57-60: one line per folder, folders sorted by their lower-cased
    name. *)
Definition render_folders `{Str} (folders : dict nat) : M unit :=
  for_each (sorted_keyed ((λ k, (str_lower k, k)) <$> folders.*1)).*2 (λ folder,
    let count := default 0 (dict_get folder folders) in
    print (TAB +:+ " " +:+ folder +:+ ": " +:+ pretty count +:+ " file"
           +:+ (if (1 <? count)%nat then "s" else ""))).

(** One of the three blocks of lines 48-88; they differ in the header and in
    the bucket only. *)
Definition render_bucket `{OsPath, Str} (header : string) (summarize : bool)
    (bucket : list pyval) : M unit :=
  print "";;
  print header;;
  entries ← lift (sorted_bucket bucket);
  folders ← render_entries summarize entries [];
  if summarize then render_folders folders else mret tt.

(** Lines 90-94. *)
Definition print_totals (b : buckets) (by_len : nat) : M unit :=
  print ("Left only: " +:+ pretty (length (left_only b)));;
  print ("Right only: " +:+ pretty (length (right_only b)));;
  print ("In both: " +:+ pretty (length (both b)));;
  print ("Total (by len): " +:+ pretty by_len);;
  print ("Total (by sum): " +:+ pretty (total_by_sum b)).

(** Lines 36-94 of [merge], once the two crawlers have been iterated. *)
Definition merge_enumerations `{OsPath, Str} (left right : enumeration)
    (show_left_only show_right_only show_both summarize : bool) : M unit :=
  let b := merge_buckets left right in
  (if show_left_only
   then render_bucket "Files only in left folder:" summarize (PyFileInfo <$> left_only b)
   else mret tt);;
  (if show_right_only
   then render_bucket "Files only in right folder:" summarize (PyFileInfo <$> right_only b)
   else mret tt);;
  (if show_both
   then render_bucket "Files in both folders:" summarize (PyStr <$> both b)
   else mret tt);;
  print_totals b (total_by_len left right).

(** ** FolderCrawler (lines 97-164) *)

(** The state of a crawler object. A method that mutates [self] returns the
    new state. *)
Record FolderCrawler := mkCrawler {
  root : string;
  filters : list filter_fn;
  file_map : dict FileInfo
}.

(** [FolderCrawler(root)] *)
Definition new_crawler (root : string) : FolderCrawler := mkCrawler root [] [].

(** [add_filter]: a callable is appended to the chain, anything else is
    dropped; [self] is returned either way. *)
Definition add_filter (self : FolderCrawler) (method : pyval) : FolderCrawler :=
  match method with
  | PyFunc f => mkCrawler (root self) (filters self ++ [f]) (file_map self)
  | _ => self
  end.

(** The loop of [_filter] over the chain, on the relative directory: the
    first filter that refuses or raises ends it. *)
Fixpoint run_filters (chain : list filter_fn) (rel filename : string) : result bool :=
  match chain with
  | [] => mret true
  | f :: chain' =>
      keep ← f rel filename;
      if keep : bool then run_filters chain' rel filename else mret false
  end.

Definition _filter `{OsPath} (self : FolderCrawler) (p filename : string) : result bool :=
  run_filters (filters self) (os_path_relpath p (root self)) filename.

(** The two loops of [iter_files] (lines 140-141) before the test of line
    142: every name of every [files] list [os.walk] yields, with its
    directory. *)
Definition walked_files `{FileSystem} (top : string) : list (string * string) :=
  '(p, _, files) ← os_walk top;
  fname ← files;
  [(p, fname)].

(** [iter_files] and [stat_files] are generators. Each is given by what it
    does with one file of the walk, and the loop that consumes a generator
    runs these steps file after file: an exception ends the loop at the file
    that raises it, after the steps of the files before it. *)

(** [iter_files] for one file: the file, when the chain keeps it. *)
Definition iter_file `{OsPath} (self : FolderCrawler) (pf : string * string)
    : result (option (string * string)) :=
  keep ← _filter self pf.1 pf.2;
  mret (if keep : bool then Some pf else None).

(** [iter_files], consumed to its end: the files it yields. *)
Definition iter_files `{OsPath, FileSystem} (self : FolderCrawler)
    : result (list (string * string)) :=
  omap id <$> mapM (iter_file self) (walked_files (root self)).

(** The body of the loop of [stat_files]. *)
Definition stat_file `{OsPath, FileSystem} (pf : string * string) : result FileInfo :=
  match os_stat (os_path_join pf.1 pf.2) with
  | Some st => mret (mkFileInfo pf.1 pf.2 st)
  | None => inl (OSError (os_path_join pf.1 pf.2))
  end.

(** [stat_files] for one file: the record of the file, when [iter_files]
    yields it. *)
Definition stat_files_step `{OsPath, FileSystem} (self : FolderCrawler)
    (pf : string * string) : result (option FileInfo) :=
  yielded ← iter_file self pf;
  match yielded with
  | Some pf' => Some <$> stat_file pf'
  | None => mret None
  end.

(** [stat_files], and so [__iter__], consumed to its end: the records it
    yields, or the first exception a filter or [os.stat] raises. *)
Definition stat_files `{OsPath, FileSystem} (self : FolderCrawler) : result (list FileInfo) :=
  omap id <$> mapM (stat_files_step self) (walked_files (root self)).

(** [for fi in crawler], together with [crawler.root]. *)
Definition iterate `{OsPath, FileSystem} (self : FolderCrawler) : result enumeration :=
  fis ← stat_files self;
  mret (mkEnum (root self) fis).

(** [make_map]: the dict comprehension assigns key after key. *)
Definition make_map `{OsPath, FileSystem} (self : FolderCrawler) : result FolderCrawler :=
  fis ← stat_files self;
  mret (mkCrawler (root self) (filters self)
          (foldl (λ m fi,
                    dict_upd fi (λ _, fi)
                      (os_path_relpath (os_path_join (path fi) (file fi)) (root self)) m)
                 [] fis)).

(** The body of the loop of [dump] (lines 155-157) for one file of the walk:
    the record [stat_files] yields for it, if any, is printed before the
    generator goes on to the next file. *)
Definition dump_step `{OsPath, FileSystem} (self : FolderCrawler) (pf : string * string)
    : M unit :=
  yielded ← lift (stat_files_step self pf);
  match yielded with
  | Some t => print (os_path_join (path t) (file t))
  | None => mret tt
  end.

Definition dump `{OsPath, FileSystem} (self : FolderCrawler) : M unit :=
  for_each (walked_files (root self)) (dump_step self).

(** ** FolderMerger.merge (lines 28-94) *)

Definition merge `{OsPath, Str, FileSystem} (left right : FolderCrawler)
    (show_left_only show_right_only show_both summarize : bool) : M unit :=
  l ← lift (iterate left);
  r ← lift (iterate right);
  merge_enumerations l r show_left_only show_right_only show_both summarize.

(** ** The ignore list (lines 167-187) *)

(** The loop of [_filter_out] over the patterns: the first pattern that is
    found or does not compile ends it. *)
Fixpoint search_patterns `{Regex} (ignore_list : list string) (filename : string)
    : result bool :=
  match ignore_list with
  | [] => mret true
  | ignore_pat :: rest =>
      found ← re_search ignore_pat filename;
      if found : bool then mret false else search_patterns rest filename
  end.

Definition _filter_out `{OsPath, Regex} (ignore_list : list string) : filter_fn :=
  λ p filename,
    let filename := os_path_join p filename in
    search_patterns ignore_list filename.

Definition filter_out_ignored_files `{OsPath, Regex} (ignore_list : list string) : pyval :=
  if decide (0 < length ignore_list) then PyFunc (_filter_out ignore_list) else PyNone.

(** The command line, as [parse_args] returns it. *)
Record Args := mkArgs {
  args_left : string;
  args_right : string;
  args_left_only : bool;
  args_right_only : bool;
  args_both : bool;
  args_summarize : bool;
  args_ignore_list : option string
}.

(** [if args.ignore_list]: the option was given and is not the empty
    string. *)
Definition read_ignore_list `{Str, FileSystem} (args : Args) : result (list string) :=
  match args_ignore_list args with
  | Some name =>
      if decide (name = "") then mret []
      else match open_lines name with
           | Some lines =>
               mret (str_strip <$>
                     filter (λ line, 0 < String.length (str_strip line)) lines)
           | None => inl (OSError name)
           end
  | None => mret []
  end.

Definition make_filter_of_ignored_files `{OsPath, Regex, Str, FileSystem} (args : Args)
    : result pyval :=
  ignore_list ← read_ignore_list args;
  mret (filter_out_ignored_files ignore_list).

(** ** main (lines 203-218) *)

(** Lines 206-214: the two crawlers as they stand when [merge] is called. *)
Definition main_crawlers `{OsPath, Regex, Str, FileSystem} (args : Args)
    : result (FolderCrawler * FolderCrawler) :=
  ignore_fn ← make_filter_of_ignored_files args;
  let fs_left := new_crawler (args_left args) in
  let fs_left := add_filter fs_left ignore_fn in
  fs_left ← make_map fs_left;
  let fs_right := new_crawler (args_right args) in
  let fs_left := add_filter fs_left ignore_fn in
  fs_right ← make_map fs_right;
  mret (fs_left, fs_right).

Definition main `{OsPath, Regex, Str, FileSystem} (args : Args) : M unit :=
  '(fs_left, fs_right) ← lift (main_crawlers args);
  merge fs_left fs_right (args_left_only args) (args_right_only args) (args_both args)
        (args_summarize args).

(** ** A POSIX instance of the library interfaces

    The examples run the program on [posixpath], on an [os.walk] over a
    directory tree, on [str.lower] and [str.strip] for ASCII text and on a
    matcher for patterns without metacharacters. *)

Module Posix.

(** [str.lower] on ASCII text: [A-Z] go to [a-z], every other byte is
    kept. *)
Definition ascii_lower (c : ascii) : ascii :=
  let n := nat_of_ascii c in
  if ((65 <=? n) && (n <=? 90))%nat then ascii_of_nat (n + 32) else c.

Fixpoint lower (s : string) : string :=
  match s with
  | EmptyString => EmptyString
  | String c s' => String (ascii_lower c) (lower s')
  end.

(** The ASCII characters [str.strip] removes: tab, line feed, vertical tab,
    form feed, carriage return, the separators 28 to 31, and the space. *)
Definition is_whitespace (c : ascii) : bool :=
  let n := nat_of_ascii c in
  (((9 <=? n) && (n <=? 13)) || ((28 <=? n) && (n <=? 32)))%nat.

Fixpoint lstrip (s : string) : string :=
  match s with
  | EmptyString => EmptyString
  | String c s' => if is_whitespace c then lstrip s' else s
  end.

Definition rstrip (s : string) : string := String.rev (lstrip (String.rev s)).

(** [str.strip] on ASCII text. *)
Definition strip (s : string) : string := rstrip (lstrip s).

Definition ascii_str : Str := {| str_lower := lower; str_strip := strip |}.

(** [s.split('/')] *)
Fixpoint split_sep (s : string) : list string :=
  match s with
  | EmptyString => [EmptyString]
  | String c s' =>
      if decide (c = "/"%char) then EmptyString :: split_sep s'
      else match split_sep s' with
           | h :: t => String c h :: t
           | [] => [String c EmptyString]
           end
  end.

Definition startswith (s pre : string) : bool := String.prefix pre s.

Definition endswith_sep (s : string) : bool :=
  startswith (String.rev s) "/".

(** [posixpath.join(a, b)] *)
Definition join (a b : string) : string :=
  if startswith b "/" then b
  else if decide (a = "") then b
  else if endswith_sep a then a +:+ b
  else a +:+ "/" +:+ b.

(** The loop of [posixpath.normpath]; [new_comps] is kept last component
    first. *)
Definition normpath_step (initial_slashes : nat) (new_comps : list string)
    (comp : string) : list string :=
  if decide (comp = "" ∨ comp = ".") then new_comps
  else if decide (comp ≠ ".."
                  ∨ (initial_slashes = 0 ∧ new_comps = [])
                  ∨ head new_comps = Some "..")
       then comp :: new_comps
       else tail new_comps.

Definition normpath (p : string) : string :=
  if decide (p = "") then "."
  else
    let initial_slashes :=
      if startswith p "/"
      then (if startswith p "//" && negb (startswith p "///") then 2 else 1)
      else 0 in
    let comps := rev (foldl (normpath_step initial_slashes) [] (split_sep p)) in
    let q := String.concat "/" comps in
    let q := match initial_slashes with
             | 0 => q
             | 1 => "/" +:+ q
             | _ => "//" +:+ q
             end in
    if decide (q = "") then "." else q.

(** [posixpath.abspath], in the working directory [cwd]. *)
Definition abspath (cwd p : string) : string :=
  if startswith p "/" then normpath p else normpath (join cwd p).

(** The components of [abspath(p).split('/')] that are not empty. *)
Definition components (cwd p : string) : list string :=
  filter (λ x, x ≠ "") (split_sep (abspath cwd p)).

(** The length of the common prefix of two lists of components. *)
Fixpoint common_length (l1 l2 : list string) : nat :=
  match l1, l2 with
  | x :: l1', y :: l2' => if decide (x = y) then S (common_length l1' l2') else 0
  | _, _ => 0
  end.

(** [posixpath.relpath(p, start)]. Python raises [ValueError] for the empty
    [p]; the program never passes it: it is a directory [os.walk] yields,
    or such a directory joined with the name of one of its files. *)
Definition relpath (cwd p start : string) : string :=
  let start_list := components cwd start in
  let path_list := components cwd p in
  let i := common_length start_list path_list in
  let rel_list := replicate (length start_list - i) ".." ++ drop i path_list in
  match rel_list with
  | [] => "."
  | x :: rest => foldl join x rest
  end.

Definition os_path (cwd : string) : OsPath :=
  {| os_path_join := join; os_path_relpath := relpath cwd |}.

(** A file ([None]: [os.stat] fails on it, as on a dangling link) or a
    directory with its entries in the order the directory lists them. *)
Local Unset Elimination Schemes.
Inductive node :=
  | File (st : option stat_result)
  | Dir (entries : list (string * node)).
Local Set Elimination Schemes.

Definition subdirs (entries : list (string * node)) : list string :=
  omap (λ e, match e.2 with Dir _ => Some e.1 | File _ => None end) entries.

Definition nondirs (entries : list (string * node)) : list string :=
  omap (λ e, match e.2 with File _ => Some e.1 | Dir _ => None end) entries.

(** [os.walk(top)] below a directory: the directory first, then each of
    its subdirectories in turn. *)
Fixpoint walk_node (top : string) (n : node) : list (string * list string * list string) :=
  match n with
  | File _ => []
  | Dir entries =>
      (top, subdirs entries, nondirs entries)
      :: (fix walk_entries (es : list (string * node)) :=
            match es with
            | [] => []
            | (name, sub) :: es' => walk_node (join top name) sub ++ walk_entries es'
            end) entries
  end.

(** The files below a node, by path, with what [os.stat] returns. *)
Fixpoint stat_table (top : string) (n : node) : list (string * option stat_result) :=
  match n with
  | File st => [(top, st)]
  | Dir entries =>
      (fix stat_entries (es : list (string * node)) :=
         match es with
         | [] => []
         | (name, sub) :: es' => stat_table (join top name) sub ++ stat_entries es'
         end) entries
  end.

(** What is on disk: the trees, each under the path the program names it
    by, and the text files. A path that is not listed does not exist. *)
Record image := mkImage {
  trees : list (string * node);
  text_files : list (string * list string)
}.

(** [os.walk] reports nothing for a [top] it cannot list (a missing path,
    a file): without an [onerror] handler the error of [scandir] is
    dropped and the generator ends. *)
Definition walk (img : image) (top : string) : list (string * list string * list string) :=
  match dict_get top (trees img) with
  | Some (Dir entries) => walk_node top (Dir entries)
  | _ => []
  end.

Definition stat (img : image) (p : string) : option stat_result :=
  mjoin (dict_get p (mjoin ((λ tn, stat_table tn.1 tn.2) <$> trees img))).

Definition file_system (img : image) : FileSystem :=
  {| os_walk := walk img; os_stat := stat img;
     open_lines := λ name, dict_get name (text_files img) |}.

(** [top] names a directory of the image. *)
Definition isdir (img : image) (top : string) : bool :=
  match dict_get top (trees img) with
  | Some (Dir _) => true
  | _ => false
  end.

(** The image with an empty directory put at [top]. *)
Definition with_empty_dir (img : image) (top : string) : image :=
  mkImage ((top, Dir []) :: trees img) (text_files img).

(** [re.search] for the patterns of the examples: the pattern occurs in the
    string. The one metacharacter of these patterns is the dot of [b.txt],
    and in the paths of the examples that pattern is found, as a regular
    expression, exactly where it occurs as text. *)
Fixpoint contains (pat s : string) : bool :=
  String.prefix pat s
  || match s with
     | EmptyString => false
     | String _ s' => contains pat s'
     end.

Definition literal_regex : Regex := {| re_search := λ pat s, inr (contains pat s) |}.

(** *** [re.search] on literal patterns with an end anchor

    The patterns read here are a run of characters that stand for
    themselves, each an ordinary character or a backslash followed by an
    ASCII punctuation character, with an optional [$] as the last character
    of the pattern; and the patterns in which such a run is followed by an
    opening parenthesis that no closing parenthesis follows, which do not
    compile. Every other pattern is left to the matcher [other]. *)

(** The characters with a meaning of their own in a pattern. *)
Definition is_special (c : ascii) : bool :=
  bool_decide (c ∈ list_ascii_of_string ".^$*+?{}[]\|()").

(** The characters a backslash turns into themselves: ASCII punctuation,
    and the space. *)
Definition is_escapable (c : ascii) : bool :=
  let n := nat_of_ascii c in
  (((32 <=? n) && (n <=? 47)) || ((58 <=? n) && (n <=? 64))
   || ((91 <=? n) && (n <=? 96)) || ((123 <=? n) && (n <=? 126)))%nat.

Inductive parsed :=
  | Literal (text : string) (anchored : bool)
  | Unterminated
  | Unsupported.

Definition literal_cons (c : ascii) (p : parsed) : parsed :=
  match p with
  | Literal text anchored => Literal (String c text) anchored
  | _ => p
  end.

Fixpoint parse (pat : string) : parsed :=
  match pat with
  | EmptyString => Literal EmptyString false
  | String c rest =>
      if decide (c = "\"%char) then
        match rest with
        | String d rest' => if is_escapable d then literal_cons d (parse rest') else Unsupported
        | EmptyString => Unsupported
        end
      else if decide (c = "$"%char) then
        (if decide (rest = EmptyString) then Literal EmptyString true else Unsupported)
      else if decide (c = "("%char) then
        (if contains ")" rest then Unsupported else Unterminated)
      else if is_special c then Unsupported
      else literal_cons c (parse rest)
  end.

(** [s] without its prefix [text]. *)
Fixpoint drop_prefix (text s : string) : option string :=
  match text, s with
  | EmptyString, _ => Some s
  | String a text', String b s' => if decide (a = b) then drop_prefix text' s' else None
  | String _ _, EmptyString => None
  end.

Definition LF : string := String (ascii_of_nat 10) EmptyString.

(** The pattern matches at the start of [s]: [text] is a prefix of [s], and
    for [$] what follows is the end of the string or the line feed that ends
    it. *)
Definition match_here (text : string) (anchored : bool) (s : string) : bool :=
  match drop_prefix text s with
  | Some rest => negb anchored || bool_decide (rest = EmptyString) || bool_decide (rest = LF)
  | None => false
  end.

(** [re.search]: the pattern matches at some position of [s]. *)
Fixpoint search (text : string) (anchored : bool) (s : string) : bool :=
  match_here text anchored s
  || match s with
     | EmptyString => false
     | String _ s' => search text anchored s'
     end.

Definition anchored_regex (other : Regex) : Regex :=
  {| re_search := λ pat s,
       match parse pat with
       | Literal text anchored => inr (search text anchored s)
       | Unterminated => inl (ReError pat)
       | Unsupported => @re_search other pat s
       end |}.

End Posix.

(** ** Definitions used by the statements below *)

(** The predicate an empty ignore list stands for in the words of the
    specification: an always-include no-op. *)
Definition spec_always_include : filter_fn := λ _ _, mret true.

(** A bucket of records in the order in which lines 52 and 66 iterate it. *)
Definition display_key `{OsPath, Str} (fi : FileInfo) : string :=
  str_lower (os_path_join (path fi) (file fi)).

Definition sorted_files `{OsPath, Str} (bucket : list FileInfo) : list FileInfo :=
  (sorted_keyed ((λ fi, (display_key fi, fi)) <$> bucket)).*2.

(** The line of line 56 for one record. *)
Definition entry_line `{OsPath} (fi : FileInfo) : string :=
  TAB +:+ " " +:+ os_path_join (path fi) (file fi).

(** The order of the keys of a sorted list. *)
Definition key_le {A} (x y : string * A) : Prop := String.le x.1 y.1.

(** What a slot of the entry of [k] says about the records seen so far: a
    filled slot holds one of them, whose canonical name is [k]; an empty slot
    says that none of them has that name. *)
Definition slot_ok `{OsPath} (root : string) (seen : list FileInfo) (k : string)
    (o : option FileInfo) : Prop :=
  match o with
  | Some fi => fi ∈ seen ∧ _get_canonical_name fi root = k
  | None => ∀ fi, fi ∈ seen → _get_canonical_name fi root ≠ k
  end.

(** The invariant of the loop of lines 31-34. *)
Definition file_map_inv `{OsPath} (lroot rroot : string) (lseen rseen : list FileInfo)
    (m : dict slots) : Prop :=
  NoDup m.*1 ∧
  (∀ k, k ∈ m.*1 ↔
        (∃ fi, fi ∈ lseen ∧ _get_canonical_name fi lroot = k) ∨
        (∃ fi, fi ∈ rseen ∧ _get_canonical_name fi rroot = k)) ∧
  (∀ k t, (k, t) ∈ m → slot_ok lroot lseen k t.1 ∧ slot_ok rroot rseen k t.2).

(** An entry whose filled slots carry its key, and which has one. *)
Definition entry_ok `{OsPath} (lroot rroot : string) (kt : string * slots) : Prop :=
  (∀ fi, kt.2.1 = Some fi → _get_canonical_name fi lroot = kt.1) ∧
  (∀ fi, kt.2.2 = Some fi → _get_canonical_name fi rroot = kt.1) ∧
  kt.2 ≠ (None, None).

(** The three branches of lines 41-46, each as a selection. *)
Definition sel_left (t : slots) : option FileInfo :=
  match t with (Some l, None) => Some l | _ => None end.

Definition sel_right (t : slots) : option FileInfo :=
  match t with (None, Some r) => Some r | _ => None end.

Definition sel_both `{OsPath} (t : slots) : option string :=
  match t with
  | (Some _, Some r) => Some (os_path_join (path r) (file r))
  | _ => None
  end.

(** The line [os.path.join(path, file)] that [dump] prints for a file. *)
Definition dump_line `{OsPath} (pf : string * string) : string :=
  os_path_join pf.1 pf.2.

(** The loop of [dump] over the files [iter_files] yields, when no filter
    raises: each file is passed to [os.stat] and printed before the next one
    is looked at. *)
Definition dump_files `{OsPath, FileSystem} (pfs : list (string * string)) : M unit :=
  for_each pfs (λ pf, t ← lift (stat_file pf); print (os_path_join (path t) (file t))).

(** The files [os.stat] succeeds on. *)
Definition stat_ok `{OsPath, FileSystem} (pf : string * string) : Prop :=
  is_Some (os_stat (os_path_join pf.1 pf.2)).

(** The call returns: it does not raise. *)
Definition returns {A} (r : result A) : Prop := ∃ x, r = inr x.

(** The call returns [True]. *)
Definition returns_true (r : result bool) : bool :=
  match r with
  | inr keep => keep
  | inl _ => false
  end.

(** The chain of the crawler keeps the file. *)
Definition kept `{OsPath} (self : FolderCrawler) (pf : string * string) : bool :=
  returns_true (_filter self pf.1 pf.2).

(** The filter [f], called by a crawler of the tree at [top], keeps the
    file. *)
Definition accepted `{OsPath} (f : filter_fn) (top : string) (pf : string * string) : bool :=
  returns_true (f (os_path_relpath pf.1 top) pf.2).

(** What a filter built from [ignore_list] decides for a walked file of the
    tree at [top]: no pattern is found in its relative directory joined with
    its name. *)
Definition not_ignored `{OsPath, Regex} (ignore_list : list string) (top : string)
    (pf : string * string) : bool :=
  returns_true (search_patterns ignore_list (os_path_join (os_path_relpath pf.1 top) pf.2)).

(** [re.search] returns for the pattern on every string: the pattern
    compiles. *)
Definition compiles `{Regex} (pat : string) : Prop :=
  ∀ s, returns (re_search pat s).

(** [s] ends with [suffix]. *)
Definition ends_with (suffix s : string) : Prop := ∃ t, s = t +:+ suffix.

(** The number of records of a bucket that lie in [folder], and the line of
    line 60 for that folder. *)
Definition folder_count (bucket : list FileInfo) (folder : string) : nat :=
  length (filter (λ fi, path fi = folder) bucket).

Definition folder_line (bucket : list FileInfo) (folder : string) : string :=
  TAB +:+ " " +:+ folder +:+ ": " +:+ pretty (folder_count bucket folder) +:+ " file"
  +:+ (if (1 <? folder_count bucket folder)%nat then "s" else "").

(** The [folders] dictionary of lines 51-54 once the loop has counted
    [entries], and the order in which line 58 iterates its keys. *)
Definition count_folders (entries : list FileInfo) : dict nat :=
  foldl (λ m fi, dict_upd 0 S (path fi) m) [] entries.

Definition sorted_folders `{Str} (folders : dict nat) : list string :=
  (sorted_keyed ((λ k, (str_lower k, k)) <$> folders.*1)).*2.

(** The five lines of lines 90-94. *)
Definition totals_lines (b : buckets) (by_len : nat) : list string :=
  ["Left only: " +:+ pretty (length (left_only b));
   "Right only: " +:+ pretty (length (right_only b));
   "In both: " +:+ pretty (length (both b));
   "Total (by len): " +:+ pretty by_len;
   "Total (by sum): " +:+ pretty (total_by_sum b)].

(** The lines of one of the blocks of lines 48-74 for a bucket of records:
    the blank line and the header, then the sorted records, or with
    [summarize] their folders with the counts. *)
Definition bucket_lines `{OsPath, Str} (header : string) (summarize : bool)
    (bucket : list FileInfo) : list string :=
  [""; header]
  ++ (if summarize
      then folder_line bucket <$> sorted_folders (count_folders (sorted_files bucket))
      else entry_line <$> sorted_files bucket).

(** The lines of a block that is run only when its flag is set. *)
Definition when_shown (flag : bool) (lines : list string) : list string :=
  if flag then lines else [].

(** The outcome of lines 36-94: the run raises exactly when the both bucket
    is to be shown and is not empty. *)
Definition merge_outcome (b : buckets) (show_both : bool) : result unit :=
  if show_both && negb (bool_decide (both b = [])) then inl AttributeError else inr tt.

(** ** The trees of the examples *)

Module Scenario.
Import Posix.

Definition cwd : string := "/home/user".

Definition st : stat_result := mkStat 33188 12 1700000000.

(** A left tree [L] with [a.txt] and [shared/b.txt], a right tree [R] with
    [shared/b.txt] and [c.txt], a plain file [notes.txt], and an ignore
    list naming [b.txt]; nothing is called [missing]. *)
Definition disk : image :=
  mkImage
    [("L", Dir [("a.txt", File (Some st)); ("shared", Dir [("b.txt", File (Some st))])]);
     ("R", Dir [("shared", Dir [("b.txt", File (Some st))]); ("c.txt", File (Some st))]);
     ("notes.txt", File (Some st))]
    [("ignore.txt", ["b.txt"])].

Definition left_tree : enumeration :=
  mkEnum "L" [mkFileInfo "L" "a.txt" st; mkFileInfo "L/shared" "b.txt" st].

Definition right_tree : enumeration :=
  mkEnum "R" [mkFileInfo "R" "c.txt" st; mkFileInfo "R/shared" "b.txt" st].

(** [unlike.py <left> <right>] with the given flags, run on [disk]. *)
Definition run (args : Args) : list string * result unit :=
  @main (os_path cwd) literal_regex ascii_str (file_system disk) args [].

Definition crawlers (args : Args) : result (FolderCrawler * FolderCrawler) :=
  @main_crawlers (os_path cwd) literal_regex ascii_str (file_system disk) args.

Definition buckets_of (left right : enumeration) : buckets :=
  @merge_buckets (os_path cwd) left right.

Definition crawl (self : FolderCrawler) : result enumeration :=
  @iterate (os_path cwd) (file_system disk) self.

(** The two crawlers as [main] leaves them for
    [unlike.py L R -l -r -i ignore.txt]. *)
Definition ignore_fn : filter_fn :=
  @_filter_out (os_path cwd) literal_regex ["b.txt"].

Definition filtered_left : FolderCrawler :=
  mkCrawler "L" [ignore_fn; ignore_fn] [("a.txt", mkFileInfo "L" "a.txt" st)].

Definition unfiltered_right : FolderCrawler :=
  mkCrawler "R" []
    [("c.txt", mkFileInfo "R" "c.txt" st);
     ("shared/b.txt", mkFileInfo "R/shared" "b.txt" st)].

(** The command line [unlike.py L R] with its optional flags. *)
Definition args_of (left right : string) (show_left show_right show_both : bool)
    (ignore : option string) : Args :=
  mkArgs left right show_left show_right show_both false ignore.

(** The same disk with an ignore list that has blank lines and padded
    patterns, and a file [os.stat] fails on in the right tree. *)
Definition padded_lines : list string :=
  [" b.txt " +:+ String (ascii_of_nat 10) EmptyString;
   String (ascii_of_nat 10) EmptyString;
   TAB +:+ "c.txt";
   "   "].

Definition padded_disk : image :=
  mkImage
    [("L", Dir [("a.txt", File (Some st))]);
     ("R", Dir [("c.txt", File (Some st)); ("gone", File None); ("d.txt", File (Some st))])]
    [("padded.txt", padded_lines)].

Definition padded_args : Args := args_of "L" "R" true true false (Some "padded.txt").

Definition unreadable_args : Args := args_of "L" "R" true true false (Some "nowhere.txt").

(** [re.search] for the patterns of the examples that are not plain text:
    [\.tmp$], and the opening parenthesis, which does not compile. *)
Definition regex : Regex := anchored_regex literal_regex.

(** The predicates built from these two patterns. *)
Definition tmp_filter : filter_fn := @_filter_out (os_path cwd) regex ["\.tmp$"].

Definition paren_filter : filter_fn := @_filter_out (os_path cwd) regex ["("].
End Scenario.

(** * Properties *)

(** ** Dictionaries *)

Section dict_facts.
Context {V : Type}.
Implicit Types (m : dict V) (k : string) (d v : V) (f : V → V).

Lemma dict_get_None k m : dict_get k m = None ↔ k ∉ m.*1.
Proof.
  induction m as [|[k' v] m IH]; simpl.
  - split; [intros _ | done]. apply not_elem_of_nil.
  - case_decide as Hk; subst.
    + split; [done | intros []; left].
    + rewrite IH, not_elem_of_cons. split; [intros; split; [congruence | done] | by intros []].
Qed.

Lemma dict_get_Some_elem k v m : dict_get k m = Some v → (k, v) ∈ m.
Proof.
  induction m as [|[k' v'] m IH]; simpl; [done|].
  case_decide; subst.
  - intros [= ->]. left.
  - intros ?. right. auto.
Qed.

Lemma dict_elem_get k v m : NoDup m.*1 → (k, v) ∈ m → dict_get k m = Some v.
Proof.
  induction m as [|[k' v'] m IH]; simpl; intros Hnd Hin.
  - by apply elem_of_nil in Hin.
  - apply NoDup_cons in Hnd as [Hk' Hnd].
    apply elem_of_cons in Hin as [[= -> ->]|Hin].
    + by rewrite decide_True.
    + rewrite decide_False; [auto|].
      intros ->. apply Hk'. apply list_elem_of_fmap. by exists (k, v).
Qed.

Lemma dict_get_upd d f k k' m :
  dict_get k' (dict_upd d f k m)
  = if decide (k' = k) then Some (f (default d (dict_get k m))) else dict_get k' m.
Proof.
  induction m as [|[k0 v0] m IH]; simpl.
  - repeat case_decide; congruence.
  - destruct (decide (k0 = k)) as [->|Hk0]; simpl.
    + repeat case_decide; congruence.
    + rewrite IH. repeat case_decide; congruence.
Qed.

Lemma dict_upd_keys d f k m :
  (dict_upd d f k m).*1 = if decide (k ∈ m.*1) then m.*1 else m.*1 ++ [k].
Proof.
  induction m as [|[k0 v0] m IH].
  - reflexivity.
  - cbn [dict_upd]. destruct (decide (k0 = k)) as [->|Hk0].
    + rewrite decide_True; [done | left].
    + rewrite fmap_cons, IH. cbn [fmap list_fmap fst].
      destruct (decide (k ∈ m.*1)) as [Hin|Hin].
      * rewrite decide_True; [done | by right].
      * rewrite decide_False; [done|].
        rewrite not_elem_of_cons. split; congruence.
Qed.

Lemma dict_upd_NoDup d f k m : NoDup m.*1 → NoDup (dict_upd d f k m).*1.
Proof.
  intros Hnd. rewrite dict_upd_keys. case_decide; [done|].
  apply NoDup_app. split_and!; [done| |apply NoDup_singleton].
  intros x Hx ->%list_elem_of_singleton. done.
Qed.

Lemma dict_upd_elem_keys d f k k' m :
  k' ∈ (dict_upd d f k m).*1 ↔ k' = k ∨ k' ∈ m.*1.
Proof.
  rewrite dict_upd_keys. case_decide.
  - split; [by right | by intros [->|?]].
  - rewrite elem_of_app, list_elem_of_singleton. tauto.
Qed.
Lemma dict_upd_elem d f k k' v m :
  NoDup m.*1 →
  (k', v) ∈ dict_upd d f k m →
  (k' = k ∧ v = f (default d (dict_get k m))) ∨ (k' ≠ k ∧ (k', v) ∈ m).
Proof.
  intros Hnd Hin.
  apply (dict_elem_get _ _ _ (dict_upd_NoDup d f k m Hnd)) in Hin.
  rewrite dict_get_upd in Hin. case_decide; subst.
  - left. split; congruence.
  - right. split; [done|]. by apply dict_get_Some_elem.
Qed.
End dict_facts.

(** Membership in a list extended at its end. *)
Ltac elem_snoc :=
  apply elem_of_app; first [by left | right; by apply list_elem_of_singleton].

Section merge_facts.
Context `{OsPath}.
Implicit Types (left right e : enumeration) (m : dict slots) (b : buckets)
  (fi : FileInfo) (k : string) (t : slots).

Lemma slot_ok_snoc_other root seen k o fi :
  _get_canonical_name fi root ≠ k → slot_ok root seen k o → slot_ok root (seen ++ [fi]) k o.
Proof.
  intros Hne. destruct o as [fi'|]; simpl.
  - intros [? ?]. split; [elem_snoc | done].
  - intros Hno fi' [?| ->%list_elem_of_singleton]%elem_of_app; auto.
Qed.

Lemma file_map_inv_step_left lroot rroot lseen rseen m fi :
  file_map_inv lroot rroot lseen rseen m →
  file_map_inv lroot rroot (lseen ++ [fi]) rseen
    (dict_upd (None, None) (set_slot 0 fi) (_get_canonical_name fi lroot) m).
Proof.
  intros (Hnd & Hkeys & Hslots). split_and!.
  - by apply dict_upd_NoDup.
  - intros k. rewrite dict_upd_elem_keys, Hkeys. split.
    + intros [->|[(fi' & ? & ?)|?]].
      * left. exists fi. split; [elem_snoc | done].
      * left. exists fi'. split; [elem_snoc | done].
      * by right.
    + intros [(fi' & [?| ->%list_elem_of_singleton]%elem_of_app & ?)|?]; eauto.
  - intros k t Hin.
    destruct (dict_upd_elem _ _ _ _ _ _ Hnd Hin) as [[-> ->]|[Hne Hin']]; clear Hin.
    + simpl. split.
      * split; [elem_snoc | done].
      * destruct (dict_get _ m) as [t0|] eqn:Hget; simpl.
        -- apply dict_get_Some_elem in Hget. by apply Hslots in Hget as [_ ?].
        -- apply dict_get_None in Hget. intros fi' Hfi' Heq. apply Hget, Hkeys.
           right. eauto.
    + destruct (Hslots _ _ Hin'). split; [|done]. by apply slot_ok_snoc_other.
Qed.

Lemma file_map_inv_step_right lroot rroot lseen rseen m fi :
  file_map_inv lroot rroot lseen rseen m →
  file_map_inv lroot rroot lseen (rseen ++ [fi])
    (dict_upd (None, None) (set_slot 1 fi) (_get_canonical_name fi rroot) m).
Proof.
  intros (Hnd & Hkeys & Hslots). split_and!.
  - by apply dict_upd_NoDup.
  - intros k. rewrite dict_upd_elem_keys, Hkeys. split.
    + intros [->|[?|(fi' & ? & ?)]].
      * right. exists fi. split; [elem_snoc | done].
      * by left.
      * right. exists fi'. split; [elem_snoc | done].
    + intros [?|(fi' & [?| ->%list_elem_of_singleton]%elem_of_app & ?)]; eauto.
  - intros k t Hin.
    destruct (dict_upd_elem _ _ _ _ _ _ Hnd Hin) as [[-> ->]|[Hne Hin']]; clear Hin.
    + simpl. split.
      * destruct (dict_get _ m) as [t0|] eqn:Hget; simpl.
        -- apply dict_get_Some_elem in Hget. by apply Hslots in Hget as [? _].
        -- apply dict_get_None in Hget. intros fi' Hfi' Heq. apply Hget, Hkeys.
           left. eauto.
      * split; [elem_snoc | done].
    + destruct (Hslots _ _ Hin'). split; [done|]. by apply slot_ok_snoc_other.
Qed.

Lemma fill_file_map_left_inv lroot rroot lfis lseen rseen m :
  file_map_inv lroot rroot lseen rseen m →
  file_map_inv lroot rroot (lseen ++ lfis) rseen (fill_file_map 0 (mkEnum lroot lfis) m).
Proof.
  unfold fill_file_map. simpl. revert lseen m.
  induction lfis as [|fi lfis IH]; intros lseen m Hinv; simpl.
  - by rewrite app_nil_r.
  - replace (lseen ++ fi :: lfis) with ((lseen ++ [fi]) ++ lfis)
      by (by rewrite <- (assoc_L (++))).
    apply IH. by apply file_map_inv_step_left.
Qed.

Lemma fill_file_map_right_inv lroot rroot rfis lseen rseen m :
  file_map_inv lroot rroot lseen rseen m →
  file_map_inv lroot rroot lseen (rseen ++ rfis) (fill_file_map 1 (mkEnum rroot rfis) m).
Proof.
  unfold fill_file_map. simpl. revert rseen m.
  induction rfis as [|fi rfis IH]; intros rseen m Hinv; simpl.
  - by rewrite app_nil_r.
  - replace (rseen ++ fi :: rfis) with ((rseen ++ [fi]) ++ rfis)
      by (by rewrite <- (assoc_L (++))).
    apply IH. by apply file_map_inv_step_right.
Qed.

Lemma build_file_map_inv left right :
  file_map_inv (enum_root left) (enum_root right) (enum_files left) (enum_files right)
               (build_file_map left right).
Proof.
  destruct left as [lroot lfis], right as [rroot rfis]. unfold build_file_map. simpl.
  apply (fill_file_map_right_inv lroot rroot rfis lfis []).
  apply (fill_file_map_left_inv lroot rroot lfis [] []).
  split_and!; simpl.
  - constructor.
  - intros k. split.
    + by intros ?%elem_of_nil.
    + intros [(? & ?%elem_of_nil & _)|(? & ?%elem_of_nil & _)]; done.
  - by intros k t ?%elem_of_nil.
Qed.

(** *** The classification loop as three selections *)

Lemma foldl_classify_step b (ts : list slots) :
  foldl classify_step b ts
  = mkBuckets (left_only b ++ omap sel_left ts) (right_only b ++ omap sel_right ts)
              (both b ++ omap sel_both ts).
Proof.
  revert b. induction ts as [|[[l|] [r|]] ts IH]; intros [lo ro bo]; simpl.
  - by rewrite !app_nil_r.
  - rewrite IH. simpl. by rewrite <- (assoc_L (++)).
  - rewrite IH. simpl. by rewrite <- (assoc_L (++)).
  - rewrite IH. simpl. by rewrite <- (assoc_L (++)).
  - by rewrite IH.
Qed.

Lemma classify_omap m :
  classify m = mkBuckets (omap sel_left m.*2) (omap sel_right m.*2) (omap sel_both m.*2).
Proof. unfold classify. by rewrite foldl_classify_step. Qed.

Lemma bucket_names_Permutation left right m :
  Forall (entry_ok (enum_root left) (enum_root right)) m →
  left_only_names left (classify m) ++ right_only_names right (classify m)
    ++ both_names right (classify m) ≡ₚ m.*1.
Proof.
  rewrite classify_omap. unfold left_only_names, right_only_names, both_names. simpl.
  induction 1 as [|[k [[l|] [r|]]] m (Hl & Hr & Hne) _ IH]; simpl in *.
  - done.
  - rewrite <- IH, <- (Hr r eq_refl). unfold _get_canonical_name.
    by rewrite <- !Permutation_middle.
  - by rewrite <- IH, <- (Hl l eq_refl).
  - rewrite <- IH, <- (Hr r eq_refl). by rewrite <- Permutation_middle.
  - done.
Qed.

Lemma file_map_entries_ok left right :
  Forall (entry_ok (enum_root left) (enum_root right)) (build_file_map left right).
Proof.
  destruct (build_file_map_inv left right) as (Hnd & Hkeys & Hslots).
  apply Forall_forall. intros [k [l r]] Hin.
  destruct (Hslots _ _ Hin) as [Hl Hr]. simpl in *. split_and!; simpl.
  - intros fi ->. apply Hl.
  - intros fi ->. apply Hr.
  - intros [= -> ->]. simpl in *.
    assert (k ∈ (build_file_map left right).*1) as Hk.
    { apply list_elem_of_fmap. by exists (k, (None, None)). }
    apply Hkeys in Hk as [(fi & ? & ?)|(fi & ? & ?)]; [by eapply Hl|by eapply Hr].
Qed.

(** No value of [file_map] is [[None, None]]. *)
Lemma file_map_slots_filled left right k t :
  (k, t) ∈ build_file_map left right → t ≠ (None, None).
Proof.
  intros Hin. pose proof (file_map_entries_ok left right) as Hok.
  rewrite Forall_forall in Hok. by destruct (Hok _ Hin) as (_ & _ & ?).
Qed.

Lemma elem_of_canonical_names k e :
  k ∈ canonical_names e ↔ ∃ fi, fi ∈ enum_files e ∧ _get_canonical_name fi (enum_root e) = k.
Proof.
  unfold canonical_names. rewrite elem_of_list_to_set, list_elem_of_fmap.
  split; intros (fi & ? & ?); exists fi; done.
Qed.

Lemma file_map_keys left right :
  list_to_set (build_file_map left right).*1
  =@{gset string} canonical_names left ∪ canonical_names right.
Proof.
  destruct (build_file_map_inv left right) as (_ & Hkeys & _).
  apply set_eq. intros k.
  by rewrite elem_of_list_to_set, elem_of_union, !elem_of_canonical_names, Hkeys.
Qed.

Lemma file_map_slot_left left right k t :
  (k, t) ∈ build_file_map left right → (is_Some t.1 ↔ k ∈ canonical_names left).
Proof.
  destruct (build_file_map_inv left right) as (_ & _ & Hslots).
  intros Hin. destruct (Hslots _ _ Hin) as [Hl _]. rewrite elem_of_canonical_names.
  destruct t.1 as [fi|]; simpl in *.
  - split; [eauto | intros; by eexists].
  - split; [by intros [? [=]] | intros (fi & ? & ?); by edestruct Hl].
Qed.

Lemma file_map_slot_right left right k t :
  (k, t) ∈ build_file_map left right → (is_Some t.2 ↔ k ∈ canonical_names right).
Proof.
  destruct (build_file_map_inv left right) as (_ & _ & Hslots).
  intros Hin. destruct (Hslots _ _ Hin) as [_ Hr]. rewrite elem_of_canonical_names.
  destruct t.2 as [fi|]; simpl in *.
  - split; [eauto | intros; by eexists].
  - split; [by intros [? [=]] | intros (fi & ? & ?); by edestruct Hr].
Qed.

(** *** The buckets, read as sets of canonical names *)

Lemma elem_of_left_only left right fi :
  fi ∈ left_only (merge_buckets left right)
  ↔ ∃ k, (k, (Some fi, None)) ∈ build_file_map left right.
Proof.
  unfold merge_buckets. rewrite classify_omap. simpl.
  rewrite list_elem_of_omap. split.
  - intros (t & [[k t'] [-> Hin]]%list_elem_of_fmap & Hsel). exists k.
    destruct t' as [[l|] [r|]]; simplify_eq/=. done.
  - intros (k & Hin). exists (Some fi, None). split; [|done].
    apply list_elem_of_fmap. by exists (k, (Some fi, None)).
Qed.

Lemma elem_of_right_only left right fi :
  fi ∈ right_only (merge_buckets left right)
  ↔ ∃ k, (k, (None, Some fi)) ∈ build_file_map left right.
Proof.
  unfold merge_buckets. rewrite classify_omap. simpl.
  rewrite list_elem_of_omap. split.
  - intros (t & [[k t'] [-> Hin]]%list_elem_of_fmap & Hsel). exists k.
    destruct t' as [[l|] [r|]]; simplify_eq/=. done.
  - intros (k & Hin). exists (None, Some fi). split; [|done].
    apply list_elem_of_fmap. by exists (k, (None, Some fi)).
Qed.

Lemma elem_of_both left right s :
  s ∈ both (merge_buckets left right)
  ↔ ∃ k l r, (k, (Some l, Some r)) ∈ build_file_map left right
             ∧ s = os_path_join (path r) (file r).
Proof.
  unfold merge_buckets. rewrite classify_omap. simpl.
  rewrite list_elem_of_omap. split.
  - intros (t & [[k t'] [-> Hin]]%list_elem_of_fmap & Hsel).
    destruct t' as [[l|] [r|]]; simplify_eq/=. by exists k, l, r.
  - intros (k & l & r & Hin & ->). exists (Some l, Some r). split; [|done].
    apply list_elem_of_fmap. by exists (k, (Some l, Some r)).
Qed.

Lemma file_map_lookup_key left right k :
  k ∈ canonical_names left ∪ canonical_names right →
  ∃ t, (k, t) ∈ build_file_map left right.
Proof.
  rewrite <- file_map_keys, elem_of_list_to_set, list_elem_of_fmap.
  intros ([k' t] & -> & Hin). by exists t.
Qed.

Lemma entry_key_left left right k l r :
  (k, (Some l, r)) ∈ build_file_map left right →
  _get_canonical_name l (enum_root left) = k.
Proof.
  intros Hin. pose proof (file_map_entries_ok left right) as Hok.
  rewrite Forall_forall in Hok. destruct (Hok _ Hin) as (Hl & _ & _). by apply Hl.
Qed.

Lemma entry_key_right left right k l r :
  (k, (l, Some r)) ∈ build_file_map left right →
  _get_canonical_name r (enum_root right) = k.
Proof.
  intros Hin. pose proof (file_map_entries_ok left right) as Hok.
  rewrite Forall_forall in Hok. destruct (Hok _ Hin) as (_ & Hr & _). by apply Hr.
Qed.

Lemma left_only_names_set left right :
  list_to_set (left_only_names left (merge_buckets left right))
  =@{gset string} canonical_names left ∖ canonical_names right.
Proof.
  apply set_eq. intros k. unfold left_only_names.
  rewrite elem_of_list_to_set, list_elem_of_fmap, elem_of_difference. split.
  - intros (fi & -> & (k' & Hin)%elem_of_left_only).
    rewrite (entry_key_left _ _ _ _ _ Hin).
    pose proof (file_map_slot_left _ _ _ _ Hin) as Hl.
    pose proof (file_map_slot_right _ _ _ _ Hin) as Hr. simpl in *.
    split; [by apply Hl | intros [? [=]]%Hr].
  - intros [HL HR].
    destruct (file_map_lookup_key left right k) as [[l r] Hin];
      [apply elem_of_union; tauto|].
    apply (file_map_slot_left _ _ _ _ Hin) in HL as [fi ?].
    rewrite <- (file_map_slot_right _ _ _ _ Hin) in HR. simpl in *. subst l.
    destruct r as [r|]; [by destruct HR|]. exists fi. split.
    + symmetry. by eapply entry_key_left.
    + apply elem_of_left_only. by exists k.
Qed.

Lemma right_only_names_set left right :
  list_to_set (right_only_names right (merge_buckets left right))
  =@{gset string} canonical_names right ∖ canonical_names left.
Proof.
  apply set_eq. intros k. unfold right_only_names.
  rewrite elem_of_list_to_set, list_elem_of_fmap, elem_of_difference. split.
  - intros (fi & -> & (k' & Hin)%elem_of_right_only).
    rewrite (entry_key_right _ _ _ _ _ Hin).
    pose proof (file_map_slot_left _ _ _ _ Hin) as Hl.
    pose proof (file_map_slot_right _ _ _ _ Hin) as Hr. simpl in *.
    split; [by apply Hr | intros [? [=]]%Hl].
  - intros [HR HL].
    destruct (file_map_lookup_key left right k) as [[l r] Hin];
      [apply elem_of_union; tauto|].
    apply (file_map_slot_right _ _ _ _ Hin) in HR as [fi ?].
    rewrite <- (file_map_slot_left _ _ _ _ Hin) in HL. simpl in *. subst r.
    destruct l as [l|]; [by destruct HL|]. exists fi. split.
    + symmetry. by eapply entry_key_right.
    + apply elem_of_right_only. by exists k.
Qed.

Lemma both_names_set left right :
  list_to_set (both_names right (merge_buckets left right))
  =@{gset string} canonical_names left ∩ canonical_names right.
Proof.
  apply set_eq. intros k. unfold both_names.
  rewrite elem_of_list_to_set, list_elem_of_fmap, elem_of_intersection. split.
  - intros (s & -> & (k' & l & r & Hin & ->)%elem_of_both).
    change (os_path_relpath _ _) with (_get_canonical_name r (enum_root right)).
    rewrite (entry_key_right _ _ _ _ _ Hin).
    pose proof (file_map_slot_left _ _ _ _ Hin) as Hl.
    pose proof (file_map_slot_right _ _ _ _ Hin) as Hr. simpl in *.
    split; [by apply Hl | by apply Hr].
  - intros [HL HR].
    destruct (file_map_lookup_key left right k) as [[l r] Hin];
      [apply elem_of_union; tauto|].
    apply (file_map_slot_left _ _ _ _ Hin) in HL as [fl ?].
    apply (file_map_slot_right _ _ _ _ Hin) in HR as [fr ?]. simpl in *. subst l r.
    exists (os_path_join (path fr) (file fr)). split.
    + symmetry. by eapply (entry_key_right left right k (Some fl) fr).
    + apply elem_of_both. by exists k, fl, fr.
Qed.

Lemma bucket_names_NoDup left right :
  let b := merge_buckets left right in
  NoDup (left_only_names left b ++ right_only_names right b ++ both_names right b).
Proof.
  simpl. unfold merge_buckets.
  rewrite (bucket_names_Permutation _ _ _ (file_map_entries_ok left right)).
  by destruct (build_file_map_inv left right) as (? & _).
Qed.

Lemma total_by_sum_len left right :
  total_by_sum (merge_buckets left right) = total_by_len left right.
Proof.
  unfold total_by_len, total_by_sum, merge_buckets.
  rewrite <- (bucket_names_Permutation _ _ _ (file_map_entries_ok left right)).
  unfold left_only_names, right_only_names, both_names.
  rewrite !length_app, !length_fmap. lia.
Qed.

Lemma total_by_len_size left right :
  total_by_len left right = size (canonical_names left ∪ canonical_names right).
Proof.
  unfold total_by_len. rewrite <- file_map_keys, size_list_to_set; [done|].
  by destruct (build_file_map_inv left right) as (? & _).
Qed.

Lemma bucket_names_union left right :
  let b := merge_buckets left right in
  list_to_set (left_only_names left b) ∪ list_to_set (right_only_names right b)
    ∪ list_to_set (both_names right b)
  =@{gset string} canonical_names left ∪ canonical_names right.
Proof.
  simpl. rewrite left_only_names_set, right_only_names_set, both_names_set.
  apply set_eq. intros k.
  rewrite !elem_of_union, !elem_of_difference, elem_of_intersection.
  destruct (decide (k ∈ canonical_names left)), (decide (k ∈ canonical_names right)); tauto.
Qed.

Lemma list_to_set_empty_nil (l : list string) : list_to_set l =@{gset string} ∅ → l = [].
Proof.
  destruct l as [|x l]; [done|]. intros Hl.
  assert (x ∈@{gset string} ∅) as []%not_elem_of_empty. rewrite <- Hl. set_solver.
Qed.

Lemma empty_difference_names (X : gset string) : ∅ ∖ X = ∅.
Proof.
  apply set_eq. intros k. rewrite elem_of_difference.
  split; [by intros [[]%not_elem_of_empty _] | by intros []%not_elem_of_empty].
Qed.

Lemma difference_empty_names (X : gset string) : X ∖ ∅ = X.
Proof.
  apply set_eq. intros k. rewrite elem_of_difference.
  split; [by intros [? _] | intros ?; split; [done | apply not_elem_of_empty]].
Qed.

Lemma empty_intersection_names (X : gset string) : ∅ ∩ X = ∅ ∧ X ∩ ∅ = ∅.
Proof.
  split; apply set_eq; intros k; rewrite elem_of_intersection.
  - split; [by intros [[]%not_elem_of_empty _] | by intros []%not_elem_of_empty].
  - split; [by intros [_ []%not_elem_of_empty] | by intros []%not_elem_of_empty].
Qed.

(** A tree without files fills neither its own bucket nor the both bucket,
    and every name of the other tree is a name of that tree alone. *)
Lemma merge_buckets_empty_left top right :
  let b := merge_buckets (mkEnum top []) right in
  left_only b = [] ∧ both b = [] ∧
  list_to_set (right_only_names right b) =@{gset string} canonical_names right.
Proof.
  simpl. split_and!.
  - pose proof (left_only_names_set (mkEnum top []) right) as Hs.
    change (canonical_names (mkEnum top [])) with (∅ : gset string) in Hs.
    rewrite empty_difference_names in Hs. apply list_to_set_empty_nil in Hs.
    by apply fmap_nil_inv in Hs.
  - pose proof (both_names_set (mkEnum top []) right) as Hs.
    change (canonical_names (mkEnum top [])) with (∅ : gset string) in Hs.
    rewrite (proj1 (empty_intersection_names _)) in Hs. apply list_to_set_empty_nil in Hs.
    by apply fmap_nil_inv in Hs.
  - rewrite right_only_names_set.
    change (canonical_names (mkEnum top [])) with (∅ : gset string).
    apply difference_empty_names.
Qed.

Lemma merge_buckets_empty_right top left :
  let b := merge_buckets left (mkEnum top []) in
  right_only b = [] ∧ both b = [] ∧
  list_to_set (left_only_names left b) =@{gset string} canonical_names left.
Proof.
  simpl. split_and!.
  - pose proof (right_only_names_set left (mkEnum top [])) as Hs.
    change (canonical_names (mkEnum top [])) with (∅ : gset string) in Hs.
    rewrite empty_difference_names in Hs. apply list_to_set_empty_nil in Hs.
    by apply fmap_nil_inv in Hs.
  - pose proof (both_names_set left (mkEnum top [])) as Hs.
    change (canonical_names (mkEnum top [])) with (∅ : gset string) in Hs.
    rewrite (proj2 (empty_intersection_names _)) in Hs. apply list_to_set_empty_nil in Hs.
    by apply fmap_nil_inv in Hs.
  - rewrite left_only_names_set.
    change (canonical_names (mkEnum top [])) with (∅ : gset string).
    apply difference_empty_names.
Qed.

Lemma print_totals_lines b by_len out :
  print_totals b by_len out
  = (out ++ ["Left only: " +:+ pretty (length (left_only b));
             "Right only: " +:+ pretty (length (right_only b));
             "In both: " +:+ pretty (length (both b));
             "Total (by len): " +:+ pretty by_len;
             "Total (by sum): " +:+ pretty (total_by_sum b)],
     inr tt).
Proof.
  unfold print_totals, print, mbind, M_bind. simpl.
  by rewrite <- !(assoc_L (++)).
Qed.

(** C1. The reconciliation partitions the union of the canonical names of
    the two trees: the names of the three buckets are pairwise disjoint
    and cover the union, the sizes of the buckets add up to the number of
    distinct canonical names, and the two totals of lines 93 and 94 are
    printed with the same number. *)
Theorem merge_partitions_union left right :
  let b := merge_buckets left right in
  let lo : gset string := list_to_set (left_only_names left b) in
  let ro : gset string := list_to_set (right_only_names right b) in
  let bo : gset string := list_to_set (both_names right b) in
  let n := size (canonical_names left ∪ canonical_names right) in
  lo ## ro ∧ lo ## bo ∧ ro ## bo ∧
  lo ∪ ro ∪ bo = canonical_names left ∪ canonical_names right ∧
  NoDup (left_only_names left b ++ right_only_names right b ++ both_names right b) ∧
  length (left_only b) + length (right_only b) + length (both b) = n ∧
  total_by_len left right = n ∧ total_by_sum b = n ∧
  ∀ out, ∃ l1 l2 l3,
    print_totals b (total_by_len left right) out
    = (out ++ [l1; l2; l3; "Total (by len): " +:+ pretty n; "Total (by sum): " +:+ pretty n],
       inr tt).
Proof.
  simpl.
  pose proof (total_by_sum_len left right) as Hsum.
  pose proof (total_by_len_size left right) as Hlen.
  rewrite left_only_names_set, right_only_names_set, both_names_set.
  split_and!.
  - apply elem_of_disjoint. intros k [? ?]%elem_of_difference [? ?]%elem_of_difference. done.
  - apply elem_of_disjoint. intros k [? ?]%elem_of_difference [? ?]%elem_of_intersection. done.
  - apply elem_of_disjoint. intros k [? ?]%elem_of_difference [? ?]%elem_of_intersection. done.
  - rewrite <- left_only_names_set, <- right_only_names_set, <- both_names_set.
    apply bucket_names_union.
  - apply bucket_names_NoDup.
  - rewrite <- Hlen, <- Hsum. done.
  - done.
  - by rewrite Hsum.
  - intros out. rewrite print_totals_lines, Hsum, Hlen. by eexists _, _, _.
Qed.

(** C2. The buckets follow set semantics on canonical names: left-only is
    the left names minus the right names, right-only the right names minus
    the left names, and both their intersection. *)
Theorem merge_buckets_set_semantics left right :
  let b := merge_buckets left right in
  list_to_set (left_only_names left b)
    =@{gset string} canonical_names left ∖ canonical_names right ∧
  list_to_set (right_only_names right b)
    =@{gset string} canonical_names right ∖ canonical_names left ∧
  list_to_set (both_names right b)
    =@{gset string} canonical_names left ∩ canonical_names right.
Proof.
  simpl. split_and!.
  - apply left_only_names_set.
  - apply right_only_names_set.
  - apply both_names_set.
Qed.

(** C8. Swapping the two trees swaps the left-only and the right-only
    names and keeps the names of the both bucket. In [merge_buckets R L]
    the tree [L] is the right one, so the names of its right-only and both
    buckets are taken relative to the root of [L]. *)
Theorem merge_swap_symmetric (L R : enumeration) :
  list_to_set (left_only_names L (merge_buckets L R))
    =@{gset string} list_to_set (right_only_names L (merge_buckets R L)) ∧
  list_to_set (right_only_names R (merge_buckets L R))
    =@{gset string} list_to_set (left_only_names R (merge_buckets R L)) ∧
  list_to_set (both_names R (merge_buckets L R))
    =@{gset string} list_to_set (both_names L (merge_buckets R L)).
Proof.
  rewrite !left_only_names_set, !right_only_names_set, !both_names_set.
  split_and!; [done..|]. apply (comm_L (∩)).
Qed.
End merge_facts.

(** ** Computations that return or raise *)

Section result_facts.
Context {A B : Type}.
Implicit Types (f g : A → result B) (l : list A).

Lemma mapM_result_cons f x l :
  mapM f (x :: l) = y ← f x; k ← mapM f l; mret (y :: k).
Proof. done. Qed.

Lemma mapM_result_ext f g l : (∀ x, x ∈ l → f x = g x) → mapM f l = mapM g l.
Proof.
  induction l as [|x l IH]; intros Hfg; [done|].
  rewrite !mapM_result_cons, (Hfg x), IH; [done | | left].
  intros y Hy. apply Hfg. by right.
Qed.

Lemma mapM_result_total f (g : A → B) l :
  (∀ x, x ∈ l → f x = inr (g x)) → mapM f l = inr (g <$> l).
Proof.
  induction l as [|x l IH]; intros Hfg; [done|].
  rewrite mapM_result_cons, (Hfg x), IH; [done | | left].
  intros y Hy. apply Hfg. by right.
Qed.

Lemma mapM_result_inr f l k :
  mapM f l = inr k ↔ Forall2 (λ x y, f x = inr y) l k.
Proof.
  revert k. induction l as [|x l IH]; intros k.
  - split.
    + intros [= <-]. constructor.
    + by intros ->%Forall2_nil_inv_l.
  - rewrite mapM_result_cons. split.
    + destruct (f x) as [e|y] eqn:Hx; [done|]. simpl.
      destruct (mapM f l) as [e|k'] eqn:Hl; [done|]. intros [= <-].
      constructor; [done|]. by apply IH.
    + intros (y & k' & Hx & Hl & ->)%Forall2_cons_inv_l.
      rewrite Hx. simpl. apply IH in Hl. by rewrite Hl.
Qed.

(** The exception of a loop is the one of the first element that raises. *)
Lemma mapM_result_inl f l e :
  mapM f l = inl e
  ↔ ∃ before x after, l = before ++ x :: after ∧
      (∀ y, y ∈ before → ∃ b, f y = inr b) ∧ f x = inl e.
Proof.
  induction l as [|x l IH].
  - split; [done|]. by intros ([|??] & ? & ? & ? & _).
  - rewrite mapM_result_cons. destruct (f x) as [e'|y] eqn:Hx; simpl.
    + split.
      * intros [= ->]. exists [], x, l. split_and!; [done | | done].
        by intros ? ?%elem_of_nil.
      * intros ([|x' before] & x'' & after & Heq & Hbefore & Hraise).
        -- injection Heq as <- _. congruence.
        -- injection Heq as <- _. destruct (Hbefore x) as [b Hb]; [left|]. congruence.
    + destruct (mapM f l) as [e'|k] eqn:Hl; simpl.
      * split.
        -- intros [= ->]. destruct (proj1 IH eq_refl) as (before & x' & after & -> & Hb & Hr).
           exists (x :: before), x', after. split_and!; [done | | done].
           intros z [->|Hz]%elem_of_cons; [by exists y | by apply Hb].
        -- intros ([|x' before] & x'' & after & Heq & Hbefore & Hraise).
           ++ injection Heq as <- _. congruence.
           ++ injection Heq as <- ->. apply IH. exists before, x'', after.
              split_and!; [done | | done]. intros z Hz. apply Hbefore. by right.
      * split; [done|].
        intros ([|x' before] & x'' & after & Heq & Hbefore & Hraise).
        -- injection Heq as <- _. congruence.
        -- injection Heq as <- ->.
           assert (@inr exn _ k = inl e) as Hcontra; [|done].
           apply IH. exists before, x'', after. split_and!; [done | | done].
           intros z Hz. apply Hbefore. by right.
Qed.
End result_facts.

(** ** The crawler and the ignore list *)

Section crawler_facts.
Context `{OsPath, Regex, Str, FileSystem}.
Implicit Types (self : FolderCrawler) (method : pyval) (ignore_list : list string).
Implicit Types (chain : list filter_fn) (pf : string * string).

Lemma add_filter_not_callable self method :
  callable method = false → add_filter self method = self.
Proof. by destruct method. Qed.

Lemma add_filter_callable self f :
  add_filter self (PyFunc f) = mkCrawler (root self) (filters self ++ [f]) (file_map self).
Proof. done. Qed.

Lemma filter_out_ignored_files_nil : filter_out_ignored_files [] = PyNone.
Proof. done. Qed.

Lemma filter_out_ignored_files_nonempty ignore_list :
  ignore_list ≠ [] → filter_out_ignored_files ignore_list = PyFunc (_filter_out ignore_list).
Proof.
  intros Hne. unfold filter_out_ignored_files. destruct ignore_list; [done|].
  rewrite decide_True; [done | simpl; lia].
Qed.

(** The chain accepts a file exactly when every filter returns [True]. *)
Lemma run_filters_true chain rel filename :
  run_filters chain rel filename = inr true
  ↔ ∀ f, f ∈ chain → f rel filename = inr true.
Proof.
  induction chain as [|f chain IH]; simpl.
  - split; [by intros _ ? ?%elem_of_nil | done].
  - destruct (f rel filename) as [e|[]] eqn:Hf; simpl.
    + split; [done|]. intros Hall. specialize (Hall f). rewrite Hf in Hall.
      by discriminate Hall; left.
    + rewrite IH. split.
      * intros Hall g [->|?]%elem_of_cons; [done | by apply Hall].
      * intros Hall g ?. apply Hall. by right.
    + split; [done|]. intros Hall. specialize (Hall f). rewrite Hf in Hall.
      by discriminate Hall; left.
Qed.

Lemma run_filters_app chain1 chain2 rel filename :
  run_filters (chain1 ++ chain2) rel filename
  = keep ← run_filters chain1 rel filename;
    if keep : bool then run_filters chain2 rel filename else mret false.
Proof.
  induction chain1 as [|f chain1 IH]; simpl; [done|].
  destruct (f rel filename) as [e|[]]; simpl; [done | apply IH | done].
Qed.

Lemma iter_file_no_filters top fm pf : iter_file (mkCrawler top [] fm) pf = inr (Some pf).
Proof. done. Qed.

Lemma omap_id_Some {X} (l : list X) : omap id (Some <$> l) = l.
Proof. induction l as [|x l IH]; [done|]. simpl. f_equal. apply IH. Qed.

Lemma iter_files_no_filters top fm :
  iter_files (mkCrawler top [] fm) = inr (walked_files top).
Proof.
  unfold iter_files. rewrite (mapM_result_total _ Some); [|done].
  cbn [fmap result_fmap root]. by rewrite omap_id_Some.
Qed.

(** Without a filter the crawler stats every file of the walk. *)
Lemma stat_files_no_filters top fm :
  stat_files (mkCrawler top [] fm) = mapM stat_file (walked_files top).
Proof.
  unfold stat_files. simpl (root _).
  induction (walked_files top) as [|pf l IH]; [done|].
  rewrite !mapM_result_cons, <- IH.
  unfold stat_files_step. rewrite iter_file_no_filters. simpl.
  destruct (stat_file pf) as [e|fi]; simpl; [done|].
  by destruct (mapM _ l).
Qed.

(** The loop of [_filter_out] over the patterns: the three ways it ends. *)
Lemma search_patterns_false ignore_list s :
  search_patterns ignore_list s = inr false
  ↔ ∃ before pat after, ignore_list = before ++ pat :: after ∧
      (∀ q, q ∈ before → re_search q s = inr false) ∧ re_search pat s = inr true.
Proof.
  induction ignore_list as [|pat0 rest IH]; simpl.
  - split; [done | by intros ([|??] & ? & ? & ? & _)].
  - destruct (re_search pat0 s) as [e|[]] eqn:Hpat; simpl.
    + split; [done|]. intros ([|q before] & pat & after & Heq & Hbefore & Hfound).
      * injection Heq as <- _. congruence.
      * injection Heq as <- _. specialize (Hbefore pat0). rewrite Hpat in Hbefore.
        by discriminate Hbefore; left.
    + split; [|done]. intros _. exists [], pat0, rest. split_and!; [done | | done].
      by intros ? ?%elem_of_nil.
    + rewrite IH. split.
      * intros (before & pat & after & -> & Hbefore & Hfound).
        exists (pat0 :: before), pat, after. split_and!; [done | | done].
        intros q [->|?]%elem_of_cons; [done | by apply Hbefore].
      * intros ([|q before] & pat & after & Heq & Hbefore & Hfound).
        -- injection Heq as <- _. congruence.
        -- injection Heq as <- ->. exists before, pat, after. split_and!; [done | | done].
           intros q' ?. apply Hbefore. by right.
Qed.

Lemma search_patterns_true ignore_list s :
  search_patterns ignore_list s = inr true
  ↔ ∀ pat, pat ∈ ignore_list → re_search pat s = inr false.
Proof.
  induction ignore_list as [|pat0 rest IH]; simpl.
  - split; [by intros _ ? ?%elem_of_nil | done].
  - destruct (re_search pat0 s) as [e|[]] eqn:Hpat; simpl.
    + split; [done|]. intros Hall. specialize (Hall pat0). rewrite Hpat in Hall.
      by discriminate Hall; left.
    + split; [done|]. intros Hall. specialize (Hall pat0). rewrite Hpat in Hall.
      by discriminate Hall; left.
    + rewrite IH. split.
      * intros Hall pat [->|?]%elem_of_cons; [done | by apply Hall].
      * intros Hall pat ?. apply Hall. by right.
Qed.

Lemma search_patterns_raises ignore_list s e :
  search_patterns ignore_list s = inl e
  ↔ ∃ before pat after, ignore_list = before ++ pat :: after ∧
      (∀ q, q ∈ before → re_search q s = inr false) ∧ re_search pat s = inl e.
Proof.
  induction ignore_list as [|pat0 rest IH]; simpl.
  - split; [done | by intros ([|??] & ? & ? & ? & _)].
  - destruct (re_search pat0 s) as [e'|[]] eqn:Hpat; simpl.
    + split.
      * intros [= ->]. exists [], pat0, rest. split_and!; [done | | done].
        by intros ? ?%elem_of_nil.
      * intros ([|q before] & pat & after & Heq & Hbefore & Hfound).
        -- injection Heq as <- _. congruence.
        -- injection Heq as <- _. specialize (Hbefore pat0). rewrite Hpat in Hbefore.
           by discriminate Hbefore; left.
    + split; [done|]. intros ([|q before] & pat & after & Heq & Hbefore & Hfound).
      * injection Heq as <- _. congruence.
      * injection Heq as <- _. specialize (Hbefore pat0). rewrite Hpat in Hbefore.
        by discriminate Hbefore; left.
    + rewrite IH. split.
      * intros (before & pat & after & -> & Hbefore & Hfound).
        exists (pat0 :: before), pat, after. split_and!; [done | | done].
        intros q [->|?]%elem_of_cons; [done | by apply Hbefore].
      * intros ([|q before] & pat & after & Heq & Hbefore & Hfound).
        -- injection Heq as <- _. congruence.
        -- injection Heq as <- ->. exists before, pat, after. split_and!; [done | | done].
           intros q' ?. apply Hbefore. by right.
Qed.

(** When every pattern compiles the loop returns, and it returns [False]
    exactly when some pattern is found. *)
Lemma search_patterns_compiles ignore_list s :
  (∀ pat, pat ∈ ignore_list → compiles pat) →
  ∃ keep, search_patterns ignore_list s = inr keep ∧
    (keep = false ↔ ∃ pat, pat ∈ ignore_list ∧ re_search pat s = inr true).
Proof.
  intros Hc. destruct (search_patterns ignore_list s) as [e|[]] eqn:Hs.
  - apply search_patterns_raises in Hs as (before & pat & after & -> & _ & Hraise).
    destruct (Hc pat) with s as [found Hfound]; [|congruence].
    apply elem_of_app. right. left.
  - exists true. split; [done|]. split; [done|]. intros (pat & Hin & Hfound).
    rewrite search_patterns_true in Hs. rewrite (Hs pat Hin) in Hfound. done.
  - exists false. split; [done|]. split; [|done]. intros _.
    apply search_patterns_false in Hs as (before & pat & after & -> & _ & Hfound).
    exists pat. split; [|done]. apply elem_of_app. right. left.
Qed.

(** C6. For an empty ignore list no predicate is built, [add_filter]
    leaves the crawler as it is, and the crawler yields every file
    [os.walk] reports: the files of a crawler without a filter chain, and
    those of a crawler whose chain is the always-include predicate. *)
Theorem empty_ignore_list_ignores_nothing self top :
  filter_out_ignored_files [] = PyNone ∧
  add_filter self (filter_out_ignored_files []) = self ∧
  filters (add_filter (new_crawler top) (filter_out_ignored_files [])) = [] ∧
  iter_files (add_filter (new_crawler top) (filter_out_ignored_files []))
    = iter_files (new_crawler top) ∧
  iter_files (new_crawler top) = inr (walked_files top) ∧
  iter_files (add_filter (new_crawler top) (PyFunc spec_always_include))
    = iter_files (add_filter (new_crawler top) (filter_out_ignored_files [])) ∧
  stat_files (add_filter (new_crawler top) (filter_out_ignored_files []))
    = stat_files (new_crawler top).
Proof.
  split_and!.
  - apply filter_out_ignored_files_nil.
  - by apply add_filter_not_callable.
  - done.
  - done.
  - apply iter_files_no_filters.
  - done.
  - done.
Qed.

(** C10. A value that is not callable, as the [None] built for an empty
    ignore list, leaves the chain as it is: [add_filter] returns the
    crawler unchanged, and what the crawler enumerates does not change
    either. *)
Theorem add_filter_ignores_non_callable self method :
  callable method = false →
  add_filter self method = self ∧
  filters (add_filter self method) = filters self ∧
  iter_files (add_filter self method) = iter_files self ∧
  stat_files (add_filter self method) = stat_files self ∧
  callable (filter_out_ignored_files []) = false.
Proof.
  intros Hnc. rewrite (add_filter_not_callable _ _ Hnc). by split_and!.
Qed.

(** C3. When the ignore list yields a filter, [main] hands it to the left
    crawler twice and never to the right one, whose chain stays empty: the
    right tree is enumerated with every file [os.walk] reports. *)
Theorem main_filters_left_crawler_only args ignore_list fs_left fs_right :
  read_ignore_list args = inr ignore_list →
  ignore_list ≠ [] →
  main_crawlers args = inr (fs_left, fs_right) →
  filters fs_left = [_filter_out ignore_list; _filter_out ignore_list] ∧
  root fs_left = args_left args ∧
  filters fs_right = [] ∧
  root fs_right = args_right args ∧
  iter_files fs_right = inr (walked_files (args_right args)) ∧
  iterate fs_right = (mkEnum (args_right args) <$> mapM stat_file (walked_files (args_right args))).
Proof.
  intros Hread Hne. unfold main_crawlers, make_filter_of_ignored_files.
  rewrite Hread. simpl. rewrite (filter_out_ignored_files_nonempty _ Hne).
  unfold make_map. simpl.
  destruct (stat_files (mkCrawler (args_left args) [_filter_out ignore_list] [])); simpl; [done|].
  destruct (stat_files (new_crawler (args_right args))) as [e|fis] eqn:Hstat; simpl; [done|].
  intros [= <- <-]. split_and!; [done..| apply iter_files_no_filters |].
  unfold iterate. rewrite stat_files_no_filters. simpl (root _).
  by destruct (mapM _ _).
Qed.
End crawler_facts.

(** ** Sorting *)

Section sorted_facts.
Context {A : Type}.
Implicit Types (x y : string * A) (l : list (string * A)).

Lemma sorted_insert_Permutation x l : sorted_insert x l ≡ₚ x :: l.
Proof.
  induction l as [|y l IH]; simpl; [done|].
  destruct (String.leb x.1 y.1); [done|].
  rewrite IH. apply Permutation_swap.
Qed.

Lemma sorted_keyed_Permutation l : sorted_keyed l ≡ₚ l.
Proof.
  induction l as [|x l IH]; simpl; [done|].
  by rewrite sorted_insert_Permutation, IH.
Qed.

Lemma key_le_trans x y z : key_le x y → key_le y z → key_le x z.
Proof. unfold key_le. apply (transitivity (R := String.le)). Qed.

Lemma sorted_insert_StronglySorted x l :
  StronglySorted key_le l → StronglySorted key_le (sorted_insert x l).
Proof.
  induction 1 as [|y l Hl IH Hy]; simpl.
  - repeat constructor.
  - destruct (String.leb x.1 y.1) eqn:Hxy.
    + constructor; [by constructor|]. constructor.
      * unfold key_le, String.le. by rewrite Hxy.
      * eapply Forall_impl; [exact Hy|]. intros z Hz.
        eapply key_le_trans; [|exact Hz]. unfold key_le, String.le. by rewrite Hxy.
    + constructor; [done|]. rewrite sorted_insert_Permutation. constructor; [|done].
      destruct (total String.le x.1 y.1) as [Hle|Hle]; [|done].
      unfold String.le in Hle. by rewrite Hxy in Hle.
Qed.

Lemma sorted_keyed_StronglySorted l : StronglySorted key_le (sorted_keyed l).
Proof.
  induction l as [|x l IH]; simpl; [constructor|].
  by apply sorted_insert_StronglySorted.
Qed.

(** Stability: the entries of one key come out in the order they went in. *)
Lemma sorted_insert_filter_key k x l :
  filter (λ y, y.1 = k) (sorted_insert x l) = filter (λ y, y.1 = k) (x :: l).
Proof.
  induction l as [|y l IH]; simpl; [done|].
  destruct (String.leb x.1 y.1) eqn:Hxy; [done|].
  assert (x.1 ≠ y.1) as Hne.
  { intros Heq. rewrite Heq in Hxy.
    pose proof (reflexivity (R := String.le) y.1) as Hrefl.
    unfold String.le in Hrefl. by rewrite Hxy in Hrefl. }
  rewrite filter_cons, IH, !filter_cons.
  destruct (decide (y.1 = k)), (decide (x.1 = k)); congruence.
Qed.

Lemma sorted_keyed_stable k l :
  filter (λ y, y.1 = k) (sorted_keyed l) = filter (λ y, y.1 = k) l.
Proof.
  induction l as [|x l IH]; simpl; [done|].
  by rewrite sorted_insert_filter_key, !filter_cons, IH.
Qed.

Lemma sorted_insert_fmap {B} (g : A → B) x l :
  sorted_insert (prod_map id g x) (prod_map id g <$> l)
  = prod_map id g <$> sorted_insert x l.
Proof.
  induction l as [|y l IH]; simpl; [done|].
  destruct (String.leb x.1 y.1); simpl; [done|]. f_equal. apply IH.
Qed.

Lemma sorted_keyed_fmap {B} (g : A → B) l :
  sorted_keyed (prod_map id g <$> l) = prod_map id g <$> sorted_keyed l.
Proof.
  induction l as [|x l IH]; [done|].
  rewrite fmap_cons. cbn [sorted_keyed foldr]. fold (sorted_keyed l).
  fold (sorted_keyed (prod_map id g <$> l)). by rewrite IH, sorted_insert_fmap.
Qed.
End sorted_facts.

(** ** Rendering *)

Section render_facts.
Context `{OsPath, Str}.
Implicit Types (fis : list FileInfo) (out : list string) (b : buckets).

Lemma mapM_sort_key_files fis :
  mapM sort_key (PyFileInfo <$> fis) = inr (display_key <$> fis).
Proof.
  induction fis as [|fi fis IH]; [done|].
  rewrite fmap_cons. cbn [mapM]. by rewrite IH.
Qed.

Lemma zip_keys_files fis :
  zip (display_key <$> fis) (PyFileInfo <$> fis)
  = prod_map id PyFileInfo <$> ((λ fi, (display_key fi, fi)) <$> fis).
Proof. induction fis as [|fi fis IH]; [done|]. simpl. f_equal. apply IH. Qed.

(** A bucket of records is sorted without an exception. *)
Lemma sorted_bucket_files fis :
  sorted_bucket (PyFileInfo <$> fis) = inr (PyFileInfo <$> sorted_files fis).
Proof.
  unfold sorted_bucket, sorted_files. rewrite mapM_sort_key_files.
  cbn [mbind result_bind mret result_ret]. f_equal.
  rewrite zip_keys_files, sorted_keyed_fmap, <- !list_fmap_compose.
  by apply list_fmap_ext.
Qed.

Lemma sorted_bucket_nil : sorted_bucket [] = inr [].
Proof. done. Qed.

(** A bucket that starts with a string is not: the key reads [li.path]. *)
Lemma sorted_bucket_str s (l : list pyval) : sorted_bucket (PyStr s :: l) = inl AttributeError.
Proof. done. Qed.

Lemma sorted_files_Permutation fis : sorted_files fis ≡ₚ fis.
Proof.
  unfold sorted_files. rewrite sorted_keyed_Permutation, <- list_fmap_compose.
  by rewrite list_fmap_id.
Qed.

Lemma sorted_files_StronglySorted fis :
  StronglySorted (λ f1 f2 : FileInfo, String.le (display_key f1) (display_key f2))
                 (sorted_files fis).
Proof.
  unfold sorted_files.
  assert (Forall (λ x : string * FileInfo, x.1 = display_key x.2)
                 (sorted_keyed ((λ fi, (display_key fi, fi)) <$> fis))) as Hkeys.
  { rewrite sorted_keyed_Permutation. apply Forall_fmap, Forall_true. done. }
  pose proof (sorted_keyed_StronglySorted ((λ fi, (display_key fi, fi)) <$> fis)) as Hs.
  induction Hs as [|x l Hl IH Hx]; [constructor|].
  apply Forall_cons in Hkeys as [Hk Hkeys]. rewrite fmap_cons. constructor; [by apply IH|].
  apply Forall_fmap. apply Forall_forall. intros y Hy.
  rewrite Forall_forall in Hx, Hkeys. specialize (Hx y Hy). unfold key_le in Hx.
  simpl. by rewrite <- Hk, <- (Hkeys y Hy).
Qed.

Lemma render_entries_files fis folders out :
  render_entries false (PyFileInfo <$> fis) folders out
  = (out ++ (entry_line <$> fis), inr folders).
Proof.
  revert out. induction fis as [|fi fis IH]; intros out.
  - simpl. by rewrite app_nil_r.
  - rewrite !fmap_cons. cbn [render_entries].
    unfold mbind, M_bind, lift, print. simpl. rewrite IH.
    by rewrite <- (assoc_L (++)).
Qed.

(** The listing of a bucket of records: the header, then one line per
    record in the order of [sorted_files]. *)
Lemma render_bucket_files header fis out :
  render_bucket header false (PyFileInfo <$> fis) out
  = (out ++ [""; header] ++ (entry_line <$> sorted_files fis), inr tt).
Proof.
  unfold render_bucket. unfold mbind at 1 2 3 4, M_bind, print, lift.
  rewrite sorted_bucket_files, render_entries_files. simpl.
  by rewrite <- !(assoc_L (++)).
Qed.

(** The listing of a bucket of strings that is not empty stops after the
    header. *)
Lemma render_bucket_strs header summarize s (l : list string) out :
  render_bucket header summarize (PyStr <$> s :: l) out
  = (out ++ [""; header], inl AttributeError).
Proof.
  unfold render_bucket, mbind, M_bind, print, lift. simpl.
  by rewrite <- !(assoc_L (++)).
Qed.

Lemma for_each_print {A} (line : A → string) (l : list A) out :
  for_each l (λ x, print (line x)) out = (out ++ (line <$> l), inr tt).
Proof.
  revert out. induction l as [|x l IH]; intros out; simpl.
  - by rewrite app_nil_r.
  - unfold mbind, M_bind, print. rewrite IH. by rewrite <- (assoc_L (++)).
Qed.

Lemma render_entries_summarize fis folders out :
  render_entries true (PyFileInfo <$> fis) folders out
  = (out, inr (foldl (λ m fi, dict_upd 0 S (path fi) m) folders fis)).
Proof.
  revert folders. induction fis as [|fi fis IH]; intros folders; [done|].
  rewrite fmap_cons. cbn [render_entries]. unfold mbind, M_bind, lift. simpl.
  apply IH.
Qed.

(** A bucket of records is rendered without an exception, with or without
    [summarize]. *)
Lemma render_bucket_files_ok header summarize fis out :
  ∃ out', render_bucket header summarize (PyFileInfo <$> fis) out = (out', inr tt).
Proof.
  destruct summarize.
  - unfold render_bucket. unfold mbind at 1 2 3 4, M_bind, print, lift.
    rewrite sorted_bucket_files, render_entries_summarize.
    unfold render_folders. rewrite for_each_print. by eexists.
  - rewrite render_bucket_files. by eexists.
Qed.

(** With [show_both], a file present in both trees ends the run with
    [AttributeError] before the totals are printed, whatever the other
    flags are. *)
Lemma merge_show_both_raises left right sl sr summarize out :
  both (merge_buckets left right) ≠ [] →
  ∃ out', merge_enumerations left right sl sr true summarize out
          = (out', inl AttributeError).
Proof.
  intros Hne. unfold merge_enumerations.
  destruct (both (merge_buckets left right)) as [|s l] eqn:Hboth; [done|].
  unfold mbind at 1 2 3, M_bind.
  assert (∀ (flag : bool) header fis o, ∃ o',
             (if flag then render_bucket header summarize (PyFileInfo <$> fis) else mret tt) o
             = (o', inr tt)) as Hok.
  { intros [] header fis o; [apply render_bucket_files_ok | by eexists]. }
  destruct (Hok sl "Files only in left folder:"
                (left_only (merge_buckets left right)) out) as [o1 ->].
  destruct (Hok sr "Files only in right folder:"
                (right_only (merge_buckets left right)) o1) as [o2 ->].
  rewrite render_bucket_strs. by eexists.
Qed.

(** Without [show_both] the run of lines 36-94 ends normally. *)
Lemma merge_without_show_both left right sl sr summarize out :
  ∃ out', merge_enumerations left right sl sr false summarize out = (out', inr tt).
Proof.
  unfold merge_enumerations. unfold mbind at 1 2 3, M_bind.
  assert (∀ (flag : bool) header fis o, ∃ o',
             (if flag then render_bucket header summarize (PyFileInfo <$> fis) else mret tt) o
             = (o', inr tt)) as Hok.
  { intros [] header fis o; [apply render_bucket_files_ok | by eexists]. }
  destruct (Hok sl "Files only in left folder:"
                (left_only (merge_buckets left right)) out) as [o1 ->].
  destruct (Hok sr "Files only in right folder:"
                (right_only (merge_buckets left right)) o1) as [o2 ->].
  cbn [mret M_ret]. rewrite print_totals_lines. by eexists.
Qed.
End render_facts.

(** ** The run as a function of the file system *)

Section file_system_facts.
Context `{OsPath, Regex, Str}.

(** Two file systems with the same files, the same [os.stat] and the same
    text files give the same run. *)
Lemma main_file_system_ext (FS1 FS2 : FileSystem) :
  (∀ top, @walked_files FS1 top = @walked_files FS2 top) →
  (∀ p, @os_stat FS1 p = @os_stat FS2 p) →
  (∀ name, @open_lines FS1 name = @open_lines FS2 name) →
  ∀ args out, @main _ _ _ FS1 args out = @main _ _ _ FS2 args out.
Proof.
  intros Hwalk Hstat Hopen.
  assert (∀ self, @stat_files _ FS1 self = @stat_files _ FS2 self) as Hfiles.
  { intros self. unfold stat_files. rewrite Hwalk. f_equal.
    apply mapM_result_ext. intros pf _. unfold stat_files_step.
    destruct (iter_file self pf) as [e|[pf'|]]; [done | | done].
    cbn [mbind result_bind]. unfold stat_file. by rewrite Hstat. }
  assert (∀ self, @make_map _ FS1 self = @make_map _ FS2 self) as Hmap.
  { intros self. unfold make_map. by rewrite Hfiles. }
  assert (∀ args, @read_ignore_list _ FS1 args = @read_ignore_list _ FS2 args) as Hread.
  { intros args. unfold read_ignore_list.
    destruct (args_ignore_list args) as [name|]; [|done].
    case_decide; [done|]. by rewrite Hopen. }
  assert (∀ args, @main_crawlers _ _ _ FS1 args = @main_crawlers _ _ _ FS2 args) as Hcrawlers.
  { intros args. unfold main_crawlers, make_filter_of_ignored_files. rewrite Hread.
    destruct (read_ignore_list args) as [e|ignore_list]; [done|].
    cbn [mbind result_bind mret result_ret]. by rewrite !Hmap. }
  intros args out. unfold main. rewrite Hcrawlers.
  unfold mbind, M_bind, lift.
  destruct (main_crawlers args) as [e|[fs_left fs_right]]; [done|].
  unfold merge, iterate. by rewrite !Hfiles.
Qed.
End file_system_facts.

(** ** A root that is not a directory *)

Section posix_facts.
Import Posix.
Implicit Types (img : image) (top : string).

Lemma walk_not_dir img top : isdir img top = false → walk img top = [].
Proof.
  unfold isdir, walk. by destruct (dict_get top (trees img)) as [[st|entries]|].
Qed.

Lemma walked_files_with_empty_dir img top t :
  isdir img top = false →
  @walked_files (file_system (with_empty_dir img top)) t
  = @walked_files (file_system img) t.
Proof.
  intros Hnd. unfold walked_files. simpl. unfold walk at 1. simpl.
  case_decide as Ht.
  - subst t. by rewrite (walk_not_dir _ _ Hnd).
  - done.
Qed.

Lemma stat_with_empty_dir img top p : stat (with_empty_dir img top) p = stat img p.
Proof. done. Qed.

Lemma walked_files_not_dir img top :
  isdir img top = false → @walked_files (file_system img) top = [].
Proof. intros Hnd. unfold walked_files. simpl. by rewrite (walk_not_dir _ _ Hnd). Qed.

Lemma iterate_not_dir `{OsPath} img top chain fm :
  isdir img top = false →
  @iterate _ (file_system img) (mkCrawler top chain fm) = inr (mkEnum top []).
Proof.
  intros Hnd. unfold iterate, stat_files. simpl (root _).
  by rewrite (walked_files_not_dir _ _ Hnd).
Qed.

Lemma make_map_not_dir `{OsPath} img top chain fm :
  isdir img top = false →
  @make_map _ (file_system img) (mkCrawler top chain fm) = inr (mkCrawler top chain []).
Proof.
  intros Hnd. unfold make_map, stat_files. simpl (root _).
  by rewrite (walked_files_not_dir _ _ Hnd).
Qed.
End posix_facts.

(** ** Patterns *)

Section regex_facts.
Import Posix.
Implicit Types (text s rest : string).

Lemma string_app_cons a s t : String a s +:+ t = String a (s +:+ t).
Proof. done. Qed.

Lemma string_app_nil_r s : s +:+ "" = s.
Proof. induction s as [|a s IH]; [done|]. by rewrite string_app_cons, IH. Qed.

Lemma drop_prefix_Some text s rest : drop_prefix text s = Some rest ↔ s = text +:+ rest.
Proof.
  revert s. induction text as [|a text IH]; intros s; simpl.
  - change ("" +:+ rest) with rest. split; [by intros [= ->] | by intros ->].
  - rewrite string_app_cons. destruct s as [|b s]; [done|]. case_decide as Hab.
    + subst b. rewrite IH. split; [by intros -> | by intros [= ->]].
    + split; [done | intros [= -> _]; done].
Qed.

Lemma match_here_anchored text s :
  match_here text true s = true ↔ s = text ∨ s = text +:+ LF.
Proof.
  unfold match_here. destruct (drop_prefix text s) as [rest|] eqn:Hrest.
  - apply drop_prefix_Some in Hrest as ->. simpl.
    rewrite orb_true_iff, !bool_decide_eq_true. split.
    + intros [->| ->]; [left | by right]. apply string_app_nil_r.
    + intros [Heq|Heq]; [left | right].
      * rewrite <- (string_app_nil_r text) in Heq at 2. by apply (inj (String.app text)) in Heq.
      * by apply (inj (String.app text)) in Heq.
  - split; [done|]. intros Heq.
    assert (is_Some (drop_prefix text s)) as [? ?]; [|congruence].
    destruct Heq as [->| ->].
    + exists EmptyString. apply drop_prefix_Some. by rewrite string_app_nil_r.
    + exists LF. by apply drop_prefix_Some.
Qed.

Lemma search_suffix text anchored s :
  search text anchored s = true
  ↔ ∃ t u, s = t +:+ u ∧ match_here text anchored u = true.
Proof.
  induction s as [|c s IH]; simpl.
  - rewrite orb_false_r. split.
    + intros Hm. by exists EmptyString, EmptyString.
    + intros ([|??] & u & Heq & Hm); [|done]. change ("" = u) in Heq. by subst u.
  - rewrite orb_true_iff, IH. split.
    + intros [Hm|(t & u & -> & Hm)].
      * by exists EmptyString, (String c s).
      * by exists (String c t), u.
    + intros ([|c' t] & u & Heq & Hm).
      * left. change (String c s = u) in Heq. by subst u.
      * rewrite string_app_cons in Heq. injection Heq as <- ->. right. by exists t, u.
Qed.

(** A pattern that ends with [$] is found exactly in the strings that end
    with its text, or with its text and one line feed. *)
Lemma search_anchored text s :
  search text true s = true ↔ ends_with text s ∨ ends_with (text +:+ LF) s.
Proof.
  rewrite search_suffix. unfold ends_with. split.
  - intros (t & u & -> & [->| ->]%match_here_anchored); [left | right]; by exists t.
  - intros [[t ->]|[t ->]].
    + exists t, text. split; [done|]. apply match_here_anchored. by left.
    + exists t, (text +:+ LF). split; [done|]. apply match_here_anchored. by right.
Qed.
End regex_facts.

(** C7, as the claim states it, fails twice. A pattern that does not
    compile makes [re.search], and so the predicate, raise [re.error]: the
    predicate of the list [(] returns neither [True] nor [False], and the
    predicate of the list [(], [b.txt] does not return [False] on
    [shared/b.txt], in which the pattern [b.txt] is found. And the predicate
    of [\.tmp$] excludes a file whose name is [b.tmp] followed by a line
    feed, whose path does not end in [.tmp]. *)
Lemma ignore_filter_raises_or_matches_before_line_feed :
  let P := Posix.os_path Scenario.cwd in
  let R := Scenario.regex in
  @filter_out_ignored_files P R ["("] = PyFunc Scenario.paren_filter ∧
  Scenario.paren_filter "shared" "b.txt" = inl (ReError "(") ∧
  @re_search R "b.txt" (Posix.join "shared" "b.txt") = inr true ∧
  @_filter_out P R ["("; "b.txt"] "shared" "b.txt" = inl (ReError "(") ∧
  @_filter_out P R ["b.txt"; "("] "shared" "b.txt" = inr false ∧
  @filter_out_ignored_files P R ["\.tmp$"] = PyFunc Scenario.tmp_filter ∧
  Scenario.tmp_filter "shared" ("b.tmp" +:+ Posix.LF) = inr false ∧
  Posix.join "shared" ("b.tmp" +:+ Posix.LF) = "shared/b.tmp" +:+ Posix.LF ∧
  ¬ ends_with ".tmp" ("shared/b.tmp" +:+ Posix.LF).
Proof.
  split_and!; try (vm_compute; reflexivity).
  intros [t Ht]. vm_compute in Ht.
  do 9 (destruct t as [|? t]; [discriminate Ht|]; injection Ht as _ Ht).
  destruct t as [|? t]; [discriminate Ht|]. injection Ht as _ Ht.
  repeat (destruct t as [|? t]; [discriminate Ht|]; injection Ht as _ Ht).
  destruct t; discriminate Ht.
Qed.

(** C7, amended. The predicate built from a list that is not empty searches
    the patterns in the order of the list in the directory joined with the
    file name, and ends in one of three ways. It returns [False] exactly
    when some pattern is found and the search of every pattern before it
    returned without finding it; it returns [True] exactly when the search
    of every pattern returns without finding it; it raises exactly when
    [re.search] raises on a pattern, with that exception, the patterns
    before it not being found. When every pattern of the list compiles it
    returns, and returns [False] exactly when some pattern is found. In a
    crawler the directory is the one of the file relative to the root. The
    predicate of the one pattern [\.tmp$] returns for every file, and
    returns [False] exactly for the joined paths that end in [.tmp] or in
    [.tmp] and one line feed. *)
Theorem ignore_filter_returns_or_raises `{OsPath, Regex} (ignore_list : list string) :
  ignore_list ≠ [] →
  (∃ f, filter_out_ignored_files ignore_list = PyFunc f ∧
     (∀ p filename,
        (f p filename = inr false
         ↔ ∃ before pat after, ignore_list = before ++ pat :: after ∧
             (∀ q, q ∈ before → re_search q (os_path_join p filename) = inr false) ∧
             re_search pat (os_path_join p filename) = inr true) ∧
        (f p filename = inr true
         ↔ ∀ pat, pat ∈ ignore_list → re_search pat (os_path_join p filename) = inr false) ∧
        (∀ e, f p filename = inl e
         ↔ ∃ before pat after, ignore_list = before ++ pat :: after ∧
             (∀ q, q ∈ before → re_search q (os_path_join p filename) = inr false) ∧
             re_search pat (os_path_join p filename) = inl e) ∧
        ((∀ pat, pat ∈ ignore_list → compiles pat) →
         ∃ keep, f p filename = inr keep ∧
           (keep = false
            ↔ ∃ pat, pat ∈ ignore_list ∧
                re_search pat (os_path_join p filename) = inr true))) ∧
     (∀ top fm p filename,
        _filter (add_filter (mkCrawler top [] fm) (PyFunc f)) p filename
        = f (os_path_relpath p top) filename)) ∧
  (∀ other : Regex,
     ∃ g, @filter_out_ignored_files _ (Posix.anchored_regex other) ["\.tmp$"] = PyFunc g ∧
       ∀ p filename,
         (g p filename = inr false
          ↔ ends_with ".tmp" (os_path_join p filename)
            ∨ ends_with (".tmp" +:+ Posix.LF) (os_path_join p filename)) ∧
         (g p filename = inr true
          ↔ ¬ (ends_with ".tmp" (os_path_join p filename)
               ∨ ends_with (".tmp" +:+ Posix.LF) (os_path_join p filename)))).
Proof.
  intros Hne. split.
  - exists (_filter_out ignore_list). split_and!.
    + by apply filter_out_ignored_files_nonempty.
    + intros p filename. unfold _filter_out. split_and!.
      * apply search_patterns_false.
      * apply search_patterns_true.
      * intros e. apply search_patterns_raises.
      * apply search_patterns_compiles.
    + intros top fm p filename. unfold _filter. simpl.
      by destruct (_filter_out ignore_list _ _) as [e|[]].
  - intros other. exists (@_filter_out _ (Posix.anchored_regex other) ["\.tmp$"]).
    split; [done|]. intros p filename. unfold _filter_out.
    cbn [search_patterns]. change (@re_search (Posix.anchored_regex other) "\.tmp$"
                                     (os_path_join p filename))
      with (@inr exn bool (Posix.search ".tmp" true (os_path_join p filename))).
    cbn [mbind result_bind mret result_ret].
    pose proof (search_anchored ".tmp" (os_path_join p filename)) as Hs.
    destruct (Posix.search ".tmp" true (os_path_join p filename)).
    + split; [split; [intros _; by apply Hs | done] |].
      split; [done|]. intros Hno. destruct Hno. by apply Hs.
    + split; [split; [done | by intros ?%Hs] |].
      split; [intros _ ?%Hs; done | done].
Qed.

(** ** The examples *)

Lemma scenario_crawl_left : Scenario.crawl (new_crawler "L") = inr Scenario.left_tree.
Proof. vm_compute. reflexivity. Qed.

Lemma scenario_crawl_right : Scenario.crawl (new_crawler "R") = inr Scenario.right_tree.
Proof. vm_compute. reflexivity. Qed.

(** Without flags the run prints the five totals. *)
Lemma scenario_run_totals :
  Scenario.run (Scenario.args_of "L" "R" false false false None)
  = (["Left only: 1"; "Right only: 1"; "In both: 1";
      "Total (by len): 3"; "Total (by sum): 3"], inr tt).
Proof. vm_compute. reflexivity. Qed.

(** With [-l -r] the two listings come first. *)
Lemma scenario_run_listings :
  Scenario.run (Scenario.args_of "L" "R" true true false None)
  = ([""; "Files only in left folder:"; TAB +:+ " L/a.txt";
      ""; "Files only in right folder:"; TAB +:+ " R/c.txt";
      "Left only: 1"; "Right only: 1"; "In both: 1";
      "Total (by len): 3"; "Total (by sum): 3"], inr tt).
Proof. vm_compute. reflexivity. Qed.

(** The ignore list reaches the left tree only: [b.txt] is dropped from [L]
    and kept in [R], where it is then reported as a file of the right tree
    alone. *)
Lemma scenario_run_ignore_list :
  Scenario.run (Scenario.args_of "L" "R" true true false (Some "ignore.txt"))
  = ([""; "Files only in left folder:"; TAB +:+ " L/a.txt";
      ""; "Files only in right folder:"; TAB +:+ " R/c.txt"; TAB +:+ " R/shared/b.txt";
      "Left only: 1"; "Right only: 2"; "In both: 0";
      "Total (by len): 3"; "Total (by sum): 3"], inr tt).
Proof. vm_compute. reflexivity. Qed.

(** ** Properties stated on the examples *)

(** A name of both trees puts the path of its right record, root included,
    in the both bucket. *)
Lemma both_holds_right_path `{OsPath} (left right : enumeration) (k : string) :
  k ∈ canonical_names left → k ∈ canonical_names right →
  ∃ r, r ∈ enum_files right ∧ _get_canonical_name r (enum_root right) = k
       ∧ os_path_join (path r) (file r) ∈ both (merge_buckets left right).
Proof.
  intros HL HR.
  destruct (file_map_lookup_key left right k) as [[l r] Hin]; [apply elem_of_union; tauto|].
  apply (file_map_slot_left _ _ _ _ Hin) in HL as [fl ?].
  apply (file_map_slot_right _ _ _ _ Hin) in HR as [fr ?]. simpl in *. subst l r.
  destruct (build_file_map_inv left right) as (_ & _ & Hslots).
  destruct (Hslots _ _ Hin) as [_ [Hfr Hk]]. simpl in *.
  exists fr. split_and!; [done..|]. apply elem_of_both. by exists k, fl, fr.
Qed.

(** C4, as the claim states it, fails on the two trees of the scenario:
    [shared/b.txt] is a canonical name of both trees, and the both bucket
    holds [R/shared/b.txt] instead. *)
Lemma both_bucket_not_canonical :
  let P := Posix.os_path Scenario.cwd in
  let b := Scenario.buckets_of Scenario.left_tree Scenario.right_tree in
  (@_get_canonical_name P (mkFileInfo "L/shared" "b.txt" Scenario.st) "L" = "shared/b.txt") ∧
  (@_get_canonical_name P (mkFileInfo "R/shared" "b.txt" Scenario.st) "R" = "shared/b.txt") ∧
  both b = ["R/shared/b.txt"] ∧
  bool_decide ("shared/b.txt" ∈ both b) = false.
Proof. vm_compute. by split_and!. Qed.

(** C4, amended. For every canonical name of both trees the both bucket
    holds the path of the file in the right tree: the directory of the right
    record joined with its file name, root included, whose path relative to
    the right root is that name. For the trees [L] with [a.txt] and
    [shared/b.txt] and [R] with [shared/b.txt] and [c.txt], the both bucket
    is [R/shared/b.txt], left-only is the record of [L/a.txt], right-only the
    record of [R/c.txt], and both totals are 3. *)
Theorem both_bucket_holds_right_paths :
  (∀ (P : OsPath) (left right : enumeration) (k : string),
     k ∈ canonical_names left → k ∈ canonical_names right →
     ∃ r, r ∈ enum_files right ∧ _get_canonical_name r (enum_root right) = k
          ∧ os_path_join (path r) (file r) ∈ both (merge_buckets left right)) ∧
  (let P := Posix.os_path Scenario.cwd in
   let b := Scenario.buckets_of Scenario.left_tree Scenario.right_tree in
   Scenario.crawl (new_crawler "L") = inr Scenario.left_tree ∧
   Scenario.crawl (new_crawler "R") = inr Scenario.right_tree ∧
   b = mkBuckets [mkFileInfo "L" "a.txt" Scenario.st]
                 [mkFileInfo "R" "c.txt" Scenario.st]
                 ["R/shared/b.txt"] ∧
   @left_only_names P Scenario.left_tree b = ["a.txt"] ∧
   @right_only_names P Scenario.right_tree b = ["c.txt"] ∧
   @both_names P Scenario.right_tree b = ["shared/b.txt"] ∧
   @total_by_len P Scenario.left_tree Scenario.right_tree = 3 ∧
   total_by_sum b = 3).
Proof.
  split.
  - intros P left right k. apply both_holds_right_path.
  - vm_compute. by split_and!.
Qed.

Lemma both_bucket_holds_right_paths_witness :
  ∃ r, r ∈ enum_files Scenario.right_tree
       ∧ @_get_canonical_name (Posix.os_path Scenario.cwd) r "R" = "shared/b.txt"
       ∧ Posix.join (path r) (file r)
           ∈ both (Scenario.buckets_of Scenario.left_tree Scenario.right_tree).
Proof.
  apply (proj1 both_bucket_holds_right_paths (Posix.os_path Scenario.cwd)
           Scenario.left_tree Scenario.right_tree "shared/b.txt").
  - apply elem_of_canonical_names.
    exists (mkFileInfo "L/shared" "b.txt" Scenario.st). split; [|reflexivity].
    right. left.
  - apply elem_of_canonical_names.
    exists (mkFileInfo "R/shared" "b.txt" Scenario.st). split; [|reflexivity].
    right. left.
Defined.

(** C5 fails on the both bucket. With [--both] and a file present in both
    trees the run prints the header of the bucket and ends with
    [AttributeError]: the bucket holds strings, and the sort key of line 80
    reads [li.path]. Nothing of the bucket is displayed and no total is
    printed. *)
Theorem show_both_raises_attribute_error :
  Scenario.run (Scenario.args_of "L" "R" false false true None)
  = ([""; "Files in both folders:"], inl AttributeError).
Proof. vm_compute. reflexivity. Qed.

(** C9, as the claim states it, fails: with a left root that does not exist
    the run ends normally, after enumerating the right tree. *)
Lemma missing_root_run_succeeds :
  Posix.isdir Scenario.disk "missing" = false ∧
  Scenario.run (Scenario.args_of "missing" "R" false true false None)
  = ([""; "Files only in right folder:"; TAB +:+ " R/c.txt"; TAB +:+ " R/shared/b.txt";
      "Left only: 0"; "Right only: 2"; "In both: 0";
      "Total (by len): 2"; "Total (by sum): 2"], inr tt).
Proof. vm_compute. by split. Qed.

(** C9, amended. A root that does not exist or is not a directory does not
    end the run: [os.walk] yields nothing for it, its crawler enumerates no
    file and stores an empty map, and the whole run is the run on the same
    disk with an empty directory at that root. In the reconciliation a tree
    without files leaves its own bucket and the both bucket empty, and the
    names reported for the other tree alone are the canonical names of the
    files the crawler of that tree yields. *)
Theorem missing_root_is_an_empty_tree `{OsPath, Regex, Str} (img : Posix.image) (top : string) :
  Posix.isdir img top = false →
  @os_walk (Posix.file_system img) top = [] ∧
  (∀ chain fm,
     @iterate _ (Posix.file_system img) (mkCrawler top chain fm) = inr (mkEnum top [])) ∧
  (∀ chain fm,
     @make_map _ (Posix.file_system img) (mkCrawler top chain fm)
     = inr (mkCrawler top chain [])) ∧
  (∀ args out,
     @main _ _ _ (Posix.file_system img) args out
     = @main _ _ _ (Posix.file_system (Posix.with_empty_dir img top)) args out) ∧
  (∀ other : enumeration,
     let b := merge_buckets (mkEnum top []) other in
     left_only b = [] ∧ both b = [] ∧
     list_to_set (right_only_names other b) =@{gset string} canonical_names other) ∧
  (∀ other : enumeration,
     let b := merge_buckets other (mkEnum top []) in
     right_only b = [] ∧ both b = [] ∧
     list_to_set (left_only_names other b) =@{gset string} canonical_names other).
Proof.
  intros Hnd. split_and!.
  - by apply walk_not_dir.
  - intros chain fm. by apply iterate_not_dir.
  - intros chain fm. by apply make_map_not_dir.
  - intros args out. symmetry. apply main_file_system_ext; [|done..].
    intros t. by apply walked_files_with_empty_dir.
  - intros other. apply merge_buckets_empty_left.
  - intros other. apply merge_buckets_empty_right.
Qed.

Lemma missing_root_is_an_empty_tree_witness :
  Scenario.crawl (new_crawler "missing") = inr (mkEnum "missing" []) ∧
  Scenario.crawl (new_crawler "notes.txt") = inr (mkEnum "notes.txt" []).
Proof.
  split.
  - apply (proj1 (proj2 (@missing_root_is_an_empty_tree (Posix.os_path Scenario.cwd)
                           Posix.literal_regex Posix.ascii_str Scenario.disk "missing"
                           eq_refl))).
  - apply (proj1 (proj2 (@missing_root_is_an_empty_tree (Posix.os_path Scenario.cwd)
                           Posix.literal_regex Posix.ascii_str Scenario.disk "notes.txt"
                           eq_refl))).
Defined.

(** ** Witnesses on the scenario *)

Lemma main_filters_left_crawler_only_witness :
  filters Scenario.filtered_left = [Scenario.ignore_fn; Scenario.ignore_fn] ∧
  root Scenario.filtered_left = "L" ∧
  filters Scenario.unfiltered_right = [] ∧
  root Scenario.unfiltered_right = "R" ∧
  @iter_files (Posix.os_path Scenario.cwd) (Posix.file_system Scenario.disk)
    Scenario.unfiltered_right
  = inr (@walked_files (Posix.file_system Scenario.disk) "R") ∧
  Scenario.crawl Scenario.unfiltered_right
  = (mkEnum "R" <$> mapM (@stat_file (Posix.os_path Scenario.cwd)
                                     (Posix.file_system Scenario.disk))
                         (@walked_files (Posix.file_system Scenario.disk) "R")).
Proof.
  apply (@main_filters_left_crawler_only (Posix.os_path Scenario.cwd) Posix.literal_regex
           Posix.ascii_str (Posix.file_system Scenario.disk)
           (Scenario.args_of "L" "R" true true false (Some "ignore.txt")) ["b.txt"]).
  - reflexivity.
  - discriminate.
  - reflexivity.
Defined.

Lemma ignore_filter_returns_or_raises_witness :
  ∃ f, @filter_out_ignored_files (Posix.os_path Scenario.cwd) Scenario.regex
         ["b.txt"; "\.tmp$"] = PyFunc f ∧
    ∀ p filename,
      f p filename = inr true
      ↔ ∀ pat, pat ∈ ["b.txt"; "\.tmp$"] →
               @re_search Scenario.regex pat (Posix.join p filename) = inr false.
Proof.
  destruct (proj1 (@ignore_filter_returns_or_raises (Posix.os_path Scenario.cwd)
                     Scenario.regex ["b.txt"; "\.tmp$"] ltac:(discriminate)))
    as (f & Hf & Hspec & _).
  exists f. split; [exact Hf|]. intros p filename.
  exact (proj1 (proj2 (Hspec p filename))).
Defined.

Lemma add_filter_ignores_non_callable_witness :
  add_filter Scenario.unfiltered_right PyNone = Scenario.unfiltered_right ∧
  filters (add_filter Scenario.unfiltered_right PyNone) = [] ∧
  @iter_files (Posix.os_path Scenario.cwd) (Posix.file_system Scenario.disk)
    (add_filter Scenario.unfiltered_right PyNone)
  = @iter_files (Posix.os_path Scenario.cwd) (Posix.file_system Scenario.disk)
      Scenario.unfiltered_right ∧
  @stat_files (Posix.os_path Scenario.cwd) (Posix.file_system Scenario.disk)
    (add_filter Scenario.unfiltered_right PyNone)
  = @stat_files (Posix.os_path Scenario.cwd) (Posix.file_system Scenario.disk)
      Scenario.unfiltered_right ∧
  callable (@filter_out_ignored_files (Posix.os_path Scenario.cwd) Posix.literal_regex [])
  = false.
Proof.
  apply (@add_filter_ignores_non_callable (Posix.os_path Scenario.cwd) Posix.literal_regex
           (Posix.file_system Scenario.disk) Scenario.unfiltered_right PyNone).
  reflexivity.
Defined.

(** The listing of the left-only or of the right-only bucket: after the
    header, one line per record of the bucket, the records ordered by their
    lower-cased full path, and records with the same key in the order the
    bucket had them. *)
Theorem listing_of_records_sorted `{OsPath, Str} (header : string) (bucket : list FileInfo)
    (out : list string) :
  render_bucket header false (PyFileInfo <$> bucket) out
  = (out ++ [""; header] ++ (entry_line <$> sorted_files bucket), inr tt) ∧
  sorted_files bucket ≡ₚ bucket ∧
  StronglySorted (λ f1 f2 : FileInfo, String.le (display_key f1) (display_key f2))
                 (sorted_files bucket) ∧
  ∀ k, filter (λ fi, display_key fi = k) (sorted_files bucket)
       = filter (λ fi, display_key fi = k) bucket.
Proof.
  split_and!.
  - apply render_bucket_files.
  - apply sorted_files_Permutation.
  - apply sorted_files_StronglySorted.
  - intros k. unfold sorted_files.
    pose proof (sorted_keyed_stable k ((λ fi, (display_key fi, fi)) <$> bucket)) as Hst.
    assert (Forall (λ x : string * FileInfo, x.1 = display_key x.2)
                   (sorted_keyed ((λ fi, (display_key fi, fi)) <$> bucket))) as Hkeys.
    { rewrite sorted_keyed_Permutation. apply Forall_fmap, Forall_true. done. }
    assert (∀ l : list (string * FileInfo),
               Forall (λ x, x.1 = display_key x.2) l →
               filter (λ fi, display_key fi = k) l.*2 = (filter (λ y, y.1 = k) l).*2) as Hfil.
    { induction 1 as [|x l Hx _ IH]; [done|].
      rewrite fmap_cons, !filter_cons, IH, <- Hx.
      by destruct (decide (x.1 = k)). }
    rewrite (Hfil _ Hkeys), Hst, <- Hfil.
    + by rewrite <- list_fmap_compose, list_fmap_id.
    + apply Forall_fmap, Forall_true. done.
Qed.

(** * Further properties of the crawler, of the ignore list and of the run *)

(** ** The filter chain *)

Section chain_facts.
Context `{OsPath, FileSystem}.
Implicit Types (self : FolderCrawler) (f : filter_fn) (chain : list filter_fn).
Implicit Types (pf : string * string) (l pfs : list (string * string)).

Lemma fmap_result_inl {A B} (g : A → B) (r : result A) e : g <$> r = inl e ↔ r = inl e.
Proof. destruct r; unfold fmap, result_fmap; simpl; split; congruence. Qed.

Lemma iter_file_returns self pf : returns (iter_file self pf) ↔ returns (_filter self pf.1 pf.2).
Proof.
  unfold iter_file, returns. destruct (_filter self pf.1 pf.2) as [e|keep]; simpl.
  - split; by intros [? ?].
  - split; intros _; by eexists.
Qed.

Lemma iter_file_inl self pf e : iter_file self pf = inl e ↔ _filter self pf.1 pf.2 = inl e.
Proof.
  unfold iter_file.
  destruct (_filter self pf.1 pf.2) as [e'|keep]; cbn [mbind result_bind];
    unfold mret, result_ret; split; congruence.
Qed.

Lemma iter_file_inr self pf o :
  iter_file self pf = inr o
  ↔ ∃ keep : bool, _filter self pf.1 pf.2 = inr keep ∧ o = if keep then Some pf else None.
Proof.
  unfold iter_file.
  destruct (_filter self pf.1 pf.2) as [e'|keep]; cbn [mbind result_bind];
    unfold mret, result_ret.
  - split; [done | by intros (? & ? & _)].
  - split; [intros [= <-]; by exists keep | by intros (? & [= <-] & ->)].
Qed.

(** The loop of [iter_files] over the files of the walk returns when the
    chain returns for every file, with the files it keeps. *)
Lemma iter_loop_inr self l pfs :
  omap id <$> mapM (iter_file self) l = inr pfs
  ↔ (∀ pf, pf ∈ l → returns (_filter self pf.1 pf.2)) ∧ pfs = filter (kept self) l.
Proof.
  revert pfs. induction l as [|pf l IH]; intros pfs.
  - simpl. split.
    + intros [= <-]. split; [by intros ? ?%elem_of_nil | done].
    + by intros [_ ->].
  - rewrite mapM_result_cons. destruct (iter_file self pf) as [e|o] eqn:Hit.
    + apply iter_file_inl in Hit. simpl. split; [done|]. intros [Hall _].
      destruct (Hall pf) as [? ?]; [left | congruence].
    + apply iter_file_inr in Hit as (keep & Hf & ->).
      assert (filter (kept self) (pf :: l)
              = (if keep then [pf] else []) ++ filter (kept self) l) as ->.
      { assert (kept self pf = keep) as Hk by (unfold kept; by rewrite Hf).
        rewrite filter_cons. case_decide as Hd; rewrite Hk in Hd; by destruct keep. }
      cbn [mbind result_bind].
      destruct (mapM (iter_file self) l) as [e|os]; cbn [mbind result_bind fmap result_fmap].
      * split; [done|]. intros [Hall _].
        assert (@inl exn (list (string * string)) e = inr (filter (kept self) l)); [|done].
        apply IH. split; [|done]. intros pf' ?. apply Hall. by right.
      * unfold mret, result_ret. split.
        -- intros [= <-]. destruct (proj1 (IH _) eq_refl) as [Hall Heq]. split.
           ++ intros pf' [->|?]%elem_of_cons; [by eexists | by apply Hall].
           ++ rewrite <- Heq. by destruct keep.
        -- intros [Hall ->].
           assert (@inr exn _ (omap id os) = inr (filter (kept self) l)) as [= <-].
           { apply IH. split; [|done]. intros pf' ?. apply Hall. by right. }
           by destruct keep.
Qed.

Lemma iter_files_inr self pfs :
  iter_files self = inr pfs
  ↔ (∀ pf, pf ∈ walked_files (root self) → returns (_filter self pf.1 pf.2)) ∧
    pfs = filter (kept self) (walked_files (root self)).
Proof. apply iter_loop_inr. Qed.

Lemma iter_files_inl self e :
  iter_files self = inl e
  ↔ ∃ before pf after, walked_files (root self) = before ++ pf :: after ∧
      (∀ pf', pf' ∈ before → returns (_filter self pf'.1 pf'.2)) ∧
      _filter self pf.1 pf.2 = inl e.
Proof.
  unfold iter_files. rewrite fmap_result_inl, mapM_result_inl.
  split; intros (before & pf & after & Heq & Hbefore & Hraise);
    exists before, pf, after; (split_and!; [done | | by apply iter_file_inl]).
  - intros pf' Hin. apply iter_file_returns, Hbefore, Hin.
  - intros pf' Hin. apply iter_file_returns, Hbefore, Hin.
Qed.

(** The chain is a conjunction: a file passes when every filter of the chain
    returns [True] for its relative directory and name. When no filter
    raises, the crawler yields the walked files that pass, in the order of
    the walk; it raises the exception of the first file of the walk on which
    a filter raises. *)
Theorem filter_chain_is_conjunction self :
  (∀ p filename,
     _filter self p filename = inr true
     ↔ ∀ f, f ∈ filters self → f (os_path_relpath p (root self)) filename = inr true) ∧
  (∀ pfs,
     iter_files self = inr pfs
     ↔ (∀ pf, pf ∈ walked_files (root self) → returns (_filter self pf.1 pf.2)) ∧
       pfs = filter (kept self) (walked_files (root self))) ∧
  (∀ pfs, iter_files self = inr pfs → pfs `sublist_of` walked_files (root self)) ∧
  (∀ e,
     iter_files self = inl e
     ↔ ∃ before pf after, walked_files (root self) = before ++ pf :: after ∧
         (∀ pf', pf' ∈ before → returns (_filter self pf'.1 pf'.2)) ∧
         _filter self pf.1 pf.2 = inl e).
Proof.
  split_and!.
  - intros p filename. apply run_filters_true.
  - apply iter_files_inr.
  - intros pfs [_ ->]%iter_files_inr. apply sublist_filter.
  - apply iter_files_inl.
Qed.

Lemma filter_add_filter self f p filename :
  _filter (add_filter self (PyFunc f)) p filename
  = keep ← _filter self p filename;
    if keep : bool then f (os_path_relpath p (root self)) filename else mret false.
Proof.
  unfold _filter. simpl. rewrite run_filters_app.
  destruct (run_filters (filters self) _ _) as [e|[]]; simpl; [done | | done].
  by destruct (f _ _) as [e|[]].
Qed.

Lemma filter_add_filter_again self f p filename :
  f ∈ filters self →
  _filter (add_filter self (PyFunc f)) p filename = _filter self p filename.
Proof.
  intros Hin. rewrite filter_add_filter.
  destruct (_filter self p filename) as [e|[]] eqn:Hf; simpl; [done | | done].
  by apply (proj1 (run_filters_true _ _ _) Hf).
Qed.

Lemma iter_files_add_filter self f pfs' :
  iter_files (add_filter self (PyFunc f)) = inr pfs'
  ↔ ∃ pfs, iter_files self = inr pfs ∧
      (∀ pf, pf ∈ pfs → returns (f (os_path_relpath pf.1 (root self)) pf.2)) ∧
      pfs' = filter (accepted f (root self)) pfs.
Proof.
  rewrite iter_files_inr. simpl (root _).
  assert (∀ pf, returns (_filter self pf.1 pf.2) →
                (kept (add_filter self (PyFunc f)) pf
                 ↔ accepted f (root self) pf ∧ kept self pf)) as Hkept.
  { intros pf [keep Hkeep]. unfold kept, accepted. rewrite filter_add_filter, Hkeep. simpl.
    destruct keep; simpl; [|tauto]. destruct (returns_true _); simpl; tauto. }
  assert (∀ l, (∀ pf, pf ∈ l → returns (_filter self pf.1 pf.2)) →
               filter (kept (add_filter self (PyFunc f))) l
               = filter (accepted f (root self)) (filter (kept self) l)) as Hfilter.
  { intros l Hall. rewrite list_filter_filter.
    induction l as [|pf l IH]; [done|]. rewrite !filter_cons, IH.
    - destruct (Hkept pf) as [H1 H2]; [apply Hall; left|].
      repeat case_decide; tauto.
    - intros pf' ?. apply Hall. by right. }
  split.
  - intros [Hall ->].
    assert (∀ pf, pf ∈ walked_files (root self) → returns (_filter self pf.1 pf.2)) as Hall'.
    { intros pf Hpf. destruct (Hall pf Hpf) as [keep' Hkeep']. rewrite filter_add_filter in Hkeep'.
      destruct (_filter self pf.1 pf.2) as [e|keep]; [done | by eexists]. }
    exists (filter (kept self) (walked_files (root self))). split_and!.
    + by apply iter_files_inr.
    + intros pf [Hk Hpf]%list_elem_of_filter. destruct (Hall pf Hpf) as [keep' Hkeep'].
      rewrite filter_add_filter in Hkeep'. unfold kept in Hk.
      destruct (_filter self pf.1 pf.2) as [e|[]]; [done | by eexists | done].
    + by apply Hfilter.
  - intros (pfs & [Hall ->]%iter_files_inr & Hf & ->). split.
    + intros pf Hpf. rewrite filter_add_filter.
      destruct (_filter self pf.1 pf.2) as [e|[]] eqn:Hkeep; simpl.
      * destruct (Hall pf Hpf) as [? ?]. congruence.
      * apply Hf. apply list_elem_of_filter. split; [|done]. unfold kept. by rewrite Hkeep.
      * by eexists.
    + symmetry. by apply Hfilter.
Qed.

Lemma iter_file_add_filter_again self f pf :
  f ∈ filters self → iter_file (add_filter self (PyFunc f)) pf = iter_file self pf.
Proof. intros Hin. unfold iter_file. by rewrite filter_add_filter_again. Qed.

Lemma iter_files_add_filter_again self f :
  f ∈ filters self → iter_files (add_filter self (PyFunc f)) = iter_files self.
Proof.
  intros Hin. unfold iter_files. simpl (root _). f_equal.
  apply mapM_result_ext. intros pf _. by apply iter_file_add_filter_again.
Qed.

Lemma stat_files_add_filter_again self f :
  f ∈ filters self → stat_files (add_filter self (PyFunc f)) = stat_files self.
Proof.
  intros Hin. unfold stat_files. simpl (root _). f_equal.
  apply mapM_result_ext. intros pf _. unfold stat_files_step.
  by rewrite iter_file_add_filter_again.
Qed.

(** One more filter only removes files. The crawler with the new filter
    returns exactly when the crawler returned before and the new filter
    returns on every file it yielded, and it then yields those of these
    files the new filter keeps. A filter that is in the chain already
    changes nothing when it is added again. *)
Theorem add_filter_narrows_enumeration self f :
  (∀ pfs',
     iter_files (add_filter self (PyFunc f)) = inr pfs'
     ↔ ∃ pfs, iter_files self = inr pfs ∧
         (∀ pf, pf ∈ pfs → returns (f (os_path_relpath pf.1 (root self)) pf.2)) ∧
         pfs' = filter (accepted f (root self)) pfs) ∧
  (∀ pfs',
     iter_files (add_filter self (PyFunc f)) = inr pfs' →
     ∃ pfs, iter_files self = inr pfs ∧ pfs' `sublist_of` pfs) ∧
  (f ∈ filters self →
   iter_files (add_filter self (PyFunc f)) = iter_files self ∧
   stat_files (add_filter self (PyFunc f)) = stat_files self).
Proof.
  split_and!.
  - apply iter_files_add_filter.
  - intros pfs' (pfs & Hpfs & _ & ->)%iter_files_add_filter.
    exists pfs. split; [done|]. apply sublist_filter.
  - intros Hin. split; [by apply iter_files_add_filter_again|].
    by apply stat_files_add_filter_again.
Qed.
End chain_facts.

(** ** Dictionaries built by assigning key after key *)

Section assign_facts.
Context {V : Type} (key : V → string).
Implicit Types (m : dict V) (l : list V) (k : string).

Local Abbreviation assign_all m l := (foldl (λ m' x, dict_upd x (λ _, x) (key x) m') m l).

Lemma assign_all_NoDup m l : NoDup m.*1 → NoDup (assign_all m l).*1.
Proof.
  revert m. induction l as [|x l IH]; intros m Hnd; simpl; [done|].
  apply IH. by apply dict_upd_NoDup.
Qed.

Lemma assign_all_keys m l k :
  k ∈ (assign_all m l).*1 ↔ k ∈ m.*1 ∨ ∃ x, x ∈ l ∧ key x = k.
Proof.
  revert m. induction l as [|x l IH]; intros m; simpl.
  - split; [by left | intros [?|(? & ?%elem_of_nil & _)]; done].
  - rewrite IH, dict_upd_elem_keys. split.
    + intros [[->|?]|(y & ? & ?)].
      * right. exists x. split; [left | done].
      * by left.
      * right. exists y. split; [by right | done].
    + intros [?|(y & [->|?]%elem_of_cons & Hy)].
      * left. by right.
      * left. by left.
      * right. by exists y.
Qed.

(** Lookup after the assignments: the last value assigned under the key, or
    what the dictionary held before. *)
Lemma assign_all_get m l k :
  dict_get k (assign_all m l)
  = match last (filter (λ x, key x = k) l) with
    | Some x => Some x
    | None => dict_get k m
    end.
Proof.
  revert m. induction l as [|x l IH]; intros m; simpl; [done|].
  rewrite IH, filter_cons, dict_get_upd. destruct (decide (key x = k)) as [Hk|Hk].
  - rewrite last_cons, decide_True by done. by destruct (last _).
  - rewrite decide_False by done. done.
Qed.

Lemma assign_all_length m l : (length (assign_all m l) ≤ length m + length l)%nat.
Proof.
  revert m. induction l as [|x l IH]; intros m; simpl; [lia|].
  etrans; [apply IH|].
  assert (length (dict_upd x (λ _, x) (key x) m) ≤ S (length m))%nat; [|lia].
  rewrite <- (length_fmap fst (dict_upd _ _ _ _)), dict_upd_keys.
  case_decide; rewrite ?length_app, !length_fmap; simpl; lia.
Qed.
End assign_facts.

(** ** stat_files, make_map and dump *)

Section crawl_facts.
Context `{OsPath, FileSystem}.
Implicit Types (self : FolderCrawler) (pf : string * string).
Implicit Types (l pfs : list (string * string)) (fis : list FileInfo).

Lemma mapM_result_returns {A B} (f : A → result B) (l : list A) :
  returns (mapM f l) ↔ ∀ x, x ∈ l → returns (f x).
Proof.
  induction l as [|x l IH].
  - split; [by intros _ ? ?%elem_of_nil | intros _; by eexists].
  - rewrite mapM_result_cons. split.
    + intros [k Hk]. destruct (f x) as [e|y] eqn:Hx; [done|].
      cbn [mbind result_bind] in Hk. destruct (mapM f l) as [e|k'] eqn:Hl; [done|].
      intros z [->|Hz]%elem_of_cons; [by eexists|]. apply IH; [by eexists | done].
    + intros Hall. destruct (Hall x) as [y ->]; [left|]. cbn [mbind result_bind].
      destruct (proj2 IH) as [k ->]; [|by eexists]. intros z Hz. apply Hall. by right.
Qed.

Lemma stat_file_Some pf fi :
  stat_file pf = inr fi
  ↔ path fi = pf.1 ∧ file fi = pf.2 ∧ os_stat (os_path_join pf.1 pf.2) = Some (info fi).
Proof.
  unfold stat_file. destruct (os_stat _) as [st|]; simpl.
  - split.
    + by intros [= <-].
    + destruct fi as [p f i]. simpl. by intros (-> & -> & [= ->]).
  - split; [done | by intros (_ & _ & ?)].
Qed.

Lemma stat_file_fails pf e :
  stat_file pf = inl e
  ↔ os_stat (os_path_join pf.1 pf.2) = None ∧ e = OSError (os_path_join pf.1 pf.2).
Proof.
  unfold stat_file. destruct (os_stat _) as [st|]; simpl.
  - split; [done | by intros [? _]].
  - split; [by intros [= <-] | by intros [_ ->]].
Qed.

Lemma mapM_stat_file_Some pfs fis :
  mapM stat_file pfs = inr fis
  ↔ Forall2 (λ pf fi, path fi = pf.1 ∧ file fi = pf.2
                      ∧ os_stat (os_path_join pf.1 pf.2) = Some (info fi)) pfs fis.
Proof.
  rewrite mapM_result_inr.
  split; intros Hall; (eapply Forall2_impl; [exact Hall|]); intros pf fi; apply stat_file_Some.
Qed.

Lemma mapM_stat_file_fails pfs e :
  mapM stat_file pfs = inl e
  ↔ ∃ before pf rest, pfs = before ++ pf :: rest ∧ Forall stat_ok before
       ∧ os_stat (os_path_join pf.1 pf.2) = None ∧ e = OSError (os_path_join pf.1 pf.2).
Proof.
  rewrite mapM_result_inl. split.
  - intros (before & pf & rest & -> & Hok & [Hnone ->]%stat_file_fails).
    exists before, pf, rest. split_and!; [done | | done..].
    apply Forall_forall. intros pf' Hin. destruct (Hok pf' Hin) as [fi Hfi].
    apply stat_file_Some in Hfi as (_ & _ & Hfi). by eexists.
  - intros (before & pf & rest & -> & Hok & Hnone & ->).
    exists before, pf, rest. split_and!; [done | | by apply stat_file_fails].
    intros pf' Hin. rewrite Forall_forall in Hok. destruct (Hok pf' Hin) as [st Hst].
    exists (mkFileInfo pf'.1 pf'.2 st). by apply stat_file_Some.
Qed.

(** What [stat_files] does with one file of the walk. *)
Lemma stat_files_step_inl self pf e :
  stat_files_step self pf = inl e
  ↔ _filter self pf.1 pf.2 = inl e
    ∨ (_filter self pf.1 pf.2 = inr true ∧ os_stat (os_path_join pf.1 pf.2) = None
       ∧ e = OSError (os_path_join pf.1 pf.2)).
Proof.
  unfold stat_files_step, iter_file.
  destruct (_filter self pf.1 pf.2) as [e'|[]]; cbn [mbind result_bind mret result_ret].
  - split; [intros [= ->]; by left | intros [[= ->]|(? & _)]; done].
  - rewrite fmap_result_inl, stat_file_fails. split; [by right | by intros [?|(_ & ?)]].
  - unfold mret, result_ret. split; [done | intros [?|(? & _)]; done].
Qed.

Lemma stat_files_step_returns self pf :
  returns (stat_files_step self pf) → returns (_filter self pf.1 pf.2).
Proof.
  unfold stat_files_step, iter_file.
  destruct (_filter self pf.1 pf.2) as [e'|keep]; [by intros [? ?] | by eexists].
Qed.

Lemma stat_files_step_kept self pf (keep : bool) :
  _filter self pf.1 pf.2 = inr keep →
  stat_files_step self pf = if keep then Some <$> stat_file pf else inr None.
Proof. intros Hf. unfold stat_files_step, iter_file. rewrite Hf. by destruct keep. Qed.

(** When no filter raises, [stat_files] is the loop of its body over the
    files [iter_files] yields. *)
Lemma stat_loop_iter_loop self l pfs :
  omap id <$> mapM (iter_file self) l = inr pfs →
  omap id <$> mapM (stat_files_step self) l = mapM stat_file pfs.
Proof.
  revert pfs. induction l as [|pf l IH]; intros pfs.
  - by intros [= <-].
  - rewrite !mapM_result_cons.
    destruct (iter_file self pf) as [e|o] eqn:Hit; [done|].
    apply iter_file_inr in Hit as (keep & Hf & ->).
    rewrite (stat_files_step_kept _ _ _ Hf). cbn [mbind result_bind].
    destruct (mapM (iter_file self) l) as [e|os]; [done|].
    specialize (IH _ eq_refl). intros [= <-].
    destruct keep.
    + unfold omap in IH |- *. rewrite mapM_result_cons, <- IH.
      destruct (stat_file pf) as [e|fi]; [done|]. cbn [fmap result_fmap mbind result_bind].
      by destruct (mapM (stat_files_step self) l).
    + unfold omap in IH |- *. rewrite <- IH.
      cbn [mbind result_bind]. by destruct (mapM (stat_files_step self) l).
Qed.

Lemma stat_files_iter_files self pfs :
  iter_files self = inr pfs → stat_files self = mapM stat_file pfs.
Proof. apply stat_loop_iter_loop. Qed.

Lemma stat_files_returns_iter_files self :
  returns (stat_files self) → returns (iter_files self).
Proof.
  intros [fis Hfis]. eexists. apply iter_files_inr. split; [|done].
  intros pf Hpf. apply stat_files_step_returns.
  unfold stat_files in Hfis.
  destruct (mapM (stat_files_step self) (walked_files (root self))) as [e|os] eqn:Hos; [done|].
  eapply mapM_result_returns; [by eexists | done].
Qed.

(** [stat_files] returns one record per file the crawler yields, in order,
    with the directory and name of the file and what [os.stat] returned for
    their join. When no filter raises it raises the [OSError] of the first
    yielded file [os.stat] fails on. In general it raises at the first file
    of the walk on which a filter raises, or which the chain keeps and
    [os.stat] fails on. *)
Theorem stat_files_outcome self :
  (∀ fis,
     stat_files self = inr fis
     ↔ ∃ pfs, iter_files self = inr pfs ∧
         Forall2 (λ pf fi, path fi = pf.1 ∧ file fi = pf.2
                           ∧ os_stat (os_path_join pf.1 pf.2) = Some (info fi))
                 pfs fis) ∧
  (∀ pfs e,
     iter_files self = inr pfs →
     (stat_files self = inl e
      ↔ ∃ before pf rest, pfs = before ++ pf :: rest ∧ Forall stat_ok before
           ∧ os_stat (os_path_join pf.1 pf.2) = None
           ∧ e = OSError (os_path_join pf.1 pf.2))) ∧
  (∀ e,
     stat_files self = inl e
     ↔ ∃ before pf after, walked_files (root self) = before ++ pf :: after ∧
         (∀ pf', pf' ∈ before → returns (stat_files_step self pf')) ∧
         stat_files_step self pf = inl e) ∧
  (∀ pf e,
     stat_files_step self pf = inl e
     ↔ _filter self pf.1 pf.2 = inl e
       ∨ (_filter self pf.1 pf.2 = inr true ∧ os_stat (os_path_join pf.1 pf.2) = None
          ∧ e = OSError (os_path_join pf.1 pf.2))).
Proof.
  split_and!.
  - intros fis. split.
    + intros Hfis. destruct (stat_files_returns_iter_files self) as [pfs Hpfs]; [by eexists|].
      exists pfs. split; [done|]. apply mapM_stat_file_Some.
      by rewrite <- (stat_files_iter_files _ _ Hpfs).
    + intros (pfs & Hpfs & Hall). rewrite (stat_files_iter_files _ _ Hpfs).
      by apply mapM_stat_file_Some.
  - intros pfs e Hpfs. rewrite (stat_files_iter_files _ _ Hpfs). apply mapM_stat_file_fails.
  - intros e. unfold stat_files. rewrite fmap_result_inl. apply mapM_result_inl.
  - apply stat_files_step_inl.
Qed.
End crawl_facts.

Section map_facts.
Context `{OsPath, FileSystem}.
Implicit Types (self : FolderCrawler) (pf : string * string).
Implicit Types (l pfs : list (string * string)) (fis : list FileInfo).

(** [make_map] keeps the root and the chain and stores the enumerated
    records under their canonical names: the keys are pairwise distinct,
    they are the canonical names of the tree, a name is looked up to the last
    record enumerated under it, and the map is no longer than the
    enumeration. When [stat_files] raises, [make_map] raises the same. *)
Theorem make_map_stores_canonical_names self fis :
  stat_files self = inr fis →
  ∃ self',
    make_map self = inr self' ∧
    root self' = root self ∧
    filters self' = filters self ∧
    NoDup (file_map self').*1 ∧
    list_to_set (file_map self').*1 =@{gset string} canonical_names (mkEnum (root self) fis) ∧
    (∀ k, dict_get k (file_map self')
          = last (filter (λ fi, _get_canonical_name fi (root self) = k) fis)) ∧
    (length (file_map self') ≤ length fis)%nat.
Proof.
  intros Hstat. unfold make_map. rewrite Hstat. cbn [mbind result_bind mret result_ret].
  eexists. split; [reflexivity|]. cbn [root filters file_map].
  pose (key := λ fi, _get_canonical_name fi (root self)).
  change (foldl _ [] fis) with (foldl (λ m' x, dict_upd x (λ _, x) (key x) m') [] fis).
  split_and!; try done.
  - apply (assign_all_NoDup key). constructor.
  - apply set_eq. intros k.
    rewrite elem_of_list_to_set, elem_of_canonical_names, (assign_all_keys key). simpl. split.
    + by intros [?%elem_of_nil|?].
    + by right.
  - intros k. rewrite (assign_all_get key). by destruct (last _).
  - apply (assign_all_length key []).
Qed.

Lemma make_map_raises self e : stat_files self = inl e → make_map self = inl e.
Proof. intros Hstat. unfold make_map. by rewrite Hstat. Qed.

Lemma dump_files_cons pf pfs out :
  dump_files (pf :: pfs) out
  = match stat_file pf with
    | inl e => (out, inl e)
    | inr t => dump_files pfs (out ++ [os_path_join (path t) (file t)])
    end.
Proof.
  unfold dump_files. cbn [for_each]. unfold mbind, M_bind, lift, print.
  by destruct (stat_file pf).
Qed.

Lemma dump_loop_cons self pf l out :
  for_each (pf :: l) (dump_step self) out
  = match stat_files_step self pf with
    | inl e => (out, inl e)
    | inr (Some t) => for_each l (dump_step self) (out ++ [os_path_join (path t) (file t)])
    | inr None => for_each l (dump_step self) out
    end.
Proof.
  cbn [for_each]. unfold mbind at 1, M_bind. unfold dump_step at 1.
  unfold mbind at 1, M_bind, lift, print.
  by destruct (stat_files_step self pf) as [e|[t|]].
Qed.

Lemma dump_files_ok pfs fis out :
  mapM stat_file pfs = inr fis →
  dump_files pfs out = (out ++ (dump_line <$> pfs), inr tt).
Proof.
  revert fis out. induction pfs as [|pf pfs IH]; intros fis out.
  - intros _. unfold dump_files. simpl. by rewrite app_nil_r.
  - rewrite mapM_result_cons, dump_files_cons.
    destruct (stat_file pf) as [e|fi] eqn:Hpf; cbn [mbind result_bind]; [done|].
    destruct (mapM stat_file pfs) as [e|fis'] eqn:Hrest; cbn [mbind result_bind]; [done|].
    intros _. rewrite (IH fis' _ eq_refl). apply stat_file_Some in Hpf as (-> & -> & _).
    rewrite fmap_cons. unfold dump_line at 2. by rewrite <- (assoc_L (++)).
Qed.

Lemma dump_files_fails before pf rest out :
  Forall stat_ok before →
  os_stat (os_path_join pf.1 pf.2) = None →
  dump_files (before ++ pf :: rest) out
  = (out ++ (dump_line <$> before), inl (OSError (os_path_join pf.1 pf.2))).
Proof.
  intros Hok Hnone. revert out. induction Hok as [|pf0 before [st Hst] _ IH]; intros out.
  - simpl. rewrite dump_files_cons. unfold stat_file. rewrite Hnone. by rewrite app_nil_r.
  - rewrite <- app_comm_cons, dump_files_cons. unfold stat_file at 1. rewrite Hst.
    cbn [mret result_ret path file]. rewrite IH. rewrite fmap_cons.
    by rewrite <- (assoc_L (++)).
Qed.

(** When no filter raises, [dump] is the loop over the files the crawler
    yields. *)
Lemma dump_loop_kept self l out :
  (∀ pf, pf ∈ l → returns (_filter self pf.1 pf.2)) →
  for_each l (dump_step self) out = dump_files (filter (kept self) l) out.
Proof.
  revert out. induction l as [|pf l IH]; intros out Hall; [done|].
  assert (∀ o, for_each l (dump_step self) o = dump_files (filter (kept self) l) o) as IH'.
  { intros o. apply IH. intros pf' ?. apply Hall. by right. }
  destruct (Hall pf) as [keep Hkeep]; [left|].
  assert (kept self pf = keep) as Hk by (unfold kept; by rewrite Hkeep).
  rewrite dump_loop_cons, (stat_files_step_kept _ _ _ Hkeep), filter_cons.
  case_decide as Hd; rewrite Hk in Hd; destruct keep; try done.
  rewrite dump_files_cons. destruct (stat_file pf) as [e|fi]; [done|]. apply IH'.
Qed.

(** The loop of [dump] in general: the records of the files before the one
    that raises have been printed. *)
Lemma dump_loop_ok self l yielded out :
  mapM (stat_files_step self) l = inr yielded →
  for_each l (dump_step self) out
  = (out ++ ((λ t, os_path_join (path t) (file t)) <$> omap id yielded), inr tt).
Proof.
  revert yielded out. induction l as [|pf l IH]; intros yielded out.
  - intros [= <-]. simpl. by rewrite app_nil_r.
  - rewrite mapM_result_cons, dump_loop_cons.
    destruct (stat_files_step self pf) as [e|o] eqn:Hstep; [done|].
    cbn [mbind result_bind]. destruct (mapM (stat_files_step self) l) as [e|os]; [done|].
    intros [= <-]. destruct o as [t|].
    + rewrite (IH os _ eq_refl).
      assert (omap id (Some t :: os) = t :: omap id os) as -> by done.
      rewrite fmap_cons. by rewrite <- (assoc_L (++)).
    + by rewrite (IH os _ eq_refl).
Qed.

Lemma dump_loop_fails self before pf after yielded e out :
  mapM (stat_files_step self) before = inr yielded →
  stat_files_step self pf = inl e →
  for_each (before ++ pf :: after) (dump_step self) out
  = (out ++ ((λ t, os_path_join (path t) (file t)) <$> omap id yielded), inl e).
Proof.
  revert yielded out. induction before as [|pf0 before IH]; intros yielded out.
  - intros [= <-] Hstep. simpl app. rewrite dump_loop_cons, Hstep. simpl.
    by rewrite app_nil_r.
  - rewrite mapM_result_cons, <- app_comm_cons, dump_loop_cons.
    destruct (stat_files_step self pf0) as [e0|o] eqn:Hstep0; [done|].
    cbn [mbind result_bind]. destruct (mapM (stat_files_step self) before) as [e0|os]; [done|].
    intros [= <-] Hstep. destruct o as [t|].
    + rewrite (IH os _ eq_refl Hstep).
      assert (omap id (Some t :: os) = t :: omap id os) as -> by done.
      rewrite fmap_cons. by rewrite <- (assoc_L (++)).
    + by rewrite (IH os _ eq_refl Hstep).
Qed.

(** [dump] prints the joined path of every file the crawler yields, in
    order. When [os.stat] fails on one of them the run ends with its
    [OSError], and the lines of the files before it have been printed. In
    general, filters included: the run ends with the exception of the first
    file of the walk whose step raises, after the lines of the records
    yielded before it. *)
Theorem dump_prints_until_stat_fails self out :
  (∀ fis, stat_files self = inr fis →
          ∃ pfs, iter_files self = inr pfs ∧
                 dump self out = (out ++ (dump_line <$> pfs), inr tt)) ∧
  (∀ pfs before pf rest,
     iter_files self = inr pfs →
     pfs = before ++ pf :: rest →
     Forall stat_ok before →
     os_stat (os_path_join pf.1 pf.2) = None →
     dump self out
     = (out ++ (dump_line <$> before), inl (OSError (os_path_join pf.1 pf.2)))) ∧
  (∀ before pf after yielded e,
     walked_files (root self) = before ++ pf :: after →
     mapM (stat_files_step self) before = inr yielded →
     stat_files_step self pf = inl e →
     dump self out
     = (out ++ ((λ t, os_path_join (path t) (file t)) <$> omap id yielded), inl e)).
Proof.
  split_and!.
  - intros fis Hfis. destruct (stat_files_returns_iter_files self) as [pfs Hpfs]; [by eexists|].
    exists pfs. split; [done|]. pose proof Hpfs as [Hall ->]%iter_files_inr.
    unfold dump. rewrite (dump_loop_kept _ _ _ Hall). apply (dump_files_ok _ fis).
    by rewrite <- (stat_files_iter_files _ _ Hpfs).
  - intros pfs before pf rest [Hall ->]%iter_files_inr Heq Hok Hnone.
    unfold dump. rewrite (dump_loop_kept _ _ _ Hall), Heq. by apply dump_files_fails.
  - intros before pf after yielded e Heq Hbefore Hstep. unfold dump. rewrite Heq.
    by apply dump_loop_fails.
Qed.
End map_facts.

(** ** The lines of the ignore list *)

Section ignore_facts.
Context `{OsPath, Regex, Str, FileSystem}.
Implicit Types (args : Args) (ignore_list : list string) (self : FolderCrawler).

Lemma strip_nonempty line : 0 < String.length (str_strip line) ↔ str_strip line ≠ "".
Proof. destruct (str_strip line); simpl; split; (done || lia). Qed.

(** The patterns read from the ignore list are the lines of the file whose
    [strip()] is not the empty string, each replaced by its [strip()], in
    the order of the file: no pattern is empty, and there are at most as
    many patterns as lines. Without the option, or with the empty string
    for it, there is no pattern. *)
Theorem ignore_patterns_are_stripped args ignore_list :
  read_ignore_list args = inr ignore_list →
  Forall (λ pat, pat ≠ "") ignore_list ∧
  (∀ name lines,
     args_ignore_list args = Some name → name ≠ "" → open_lines name = Some lines →
     ignore_list = str_strip <$> filter (λ line, str_strip line ≠ "") lines
     ∧ (length ignore_list ≤ length lines)%nat) ∧
  (args_ignore_list args = None ∨ args_ignore_list args = Some "" → ignore_list = []).
Proof.
  unfold read_ignore_list. intros Hread.
  assert (∀ lines : list string,
             str_strip <$> filter (λ line, 0 < String.length (str_strip line)) lines
             = str_strip <$> filter (λ line, str_strip line ≠ "") lines) as Hfilter.
  { intros lines. f_equal. apply list_filter_iff. intros line. apply strip_nonempty. }
  destruct (args_ignore_list args) as [name|] eqn:Hopt; [|injection Hread as <-].
  - destruct (decide (name = "")) as [->|Hname]; [injection Hread as <-|].
    + split_and!; [constructor | by intros ? ? [= <-] | done].
    + destruct (open_lines name) as [lines|] eqn:Hopen; [|done].
      injection Hread as <-. rewrite Hfilter. split_and!.
      * apply Forall_fmap, Forall_forall. intros line Hline%list_elem_of_filter.
        simpl. tauto.
      * intros ? lines' [= <-] _ Hopen'. rewrite Hopen in Hopen'. injection Hopen' as <-.
        split; [done|]. rewrite length_fmap. apply length_filter.
      * by intros [[=]|[= ?]].
  - split_and!; [constructor | done | done].
Qed.

(** An ignore list that cannot be opened ends the run with its [OSError]
    before any tree is walked and before anything is printed. *)
Theorem unreadable_ignore_list_aborts args name out :
  args_ignore_list args = Some name →
  name ≠ "" →
  open_lines name = None →
  main_crawlers args = inl (OSError name) ∧ main args out = (out, inl (OSError name)).
Proof.
  intros Hopt Hname Hopen.
  assert (main_crawlers args = inl (OSError name)) as Hcrawlers.
  { unfold main_crawlers, make_filter_of_ignored_files, read_ignore_list.
    rewrite Hopt, decide_False, Hopen by done. done. }
  split; [done|]. unfold main. unfold mbind, M_bind, lift. by rewrite Hcrawlers.
Qed.

Lemma stat_files_ext self1 self2 :
  root self1 = root self2 → filters self1 = filters self2 → stat_files self1 = stat_files self2.
Proof.
  intros Hroot Hfilters. unfold stat_files. rewrite Hroot. f_equal.
  apply mapM_result_ext. intros pf _. unfold stat_files_step, iter_file, _filter.
  by rewrite Hroot, Hfilters.
Qed.

Lemma merge_ext left1 left2 right1 right2 sl sr sb sm out :
  root left1 = root left2 → filters left1 = filters left2 →
  root right1 = root right2 → filters right1 = filters right2 →
  merge left1 right1 sl sr sb sm out = merge left2 right2 sl sr sb sm out.
Proof.
  intros Hl1 Hl2 Hr1 Hr2. unfold merge, iterate.
  by rewrite (stat_files_ext left1 left2), (stat_files_ext right1 right2), Hl1, Hr1.
Qed.

Lemma add_filter_root self method : root (add_filter self method) = root self.
Proof. by destruct method. Qed.

(** Adding the value built from the ignore list a second time does not
    change what the crawler yields. *)
Lemma add_filter_twice_stat_files self method :
  stat_files (add_filter (add_filter self method) method) = stat_files (add_filter self method).
Proof.
  destruct method as [| | |f]; try done.
  apply stat_files_add_filter_again. simpl. apply elem_of_app. right. left.
Qed.

(** The run of [main] is the run of [merge] on a left crawler that was given
    the value built from the ignore list twice and a right crawler without
    any filter: the two calls of [make_map] and the maps they store do not
    change the report, and an exception that ends [make_map] ends [merge]
    as well. *)
Theorem main_is_merge_of_crawlers args ignore_list out :
  read_ignore_list args = inr ignore_list →
  let ignore_fn := filter_out_ignored_files ignore_list in
  main args out
  = merge (add_filter (add_filter (new_crawler (args_left args)) ignore_fn) ignore_fn)
          (new_crawler (args_right args))
          (args_left_only args) (args_right_only args) (args_both args)
          (args_summarize args) out.
Proof.
  intros Hread ignore_fn.
  assert (∀ self, match make_map self with
                  | inl e => stat_files self = inl e
                  | inr self' => ∃ fis, stat_files self = inr fis
                                        ∧ root self' = root self
                                        ∧ filters self' = filters self
                  end) as Hmap.
  { intros self. unfold make_map. destruct (stat_files self) as [e|fis]; [done|].
    cbn [mbind result_bind mret result_ret]. by exists fis. }
  unfold main, main_crawlers, make_filter_of_ignored_files. rewrite Hread.
  cbn [mbind result_bind mret result_ret]. fold ignore_fn. clearbody ignore_fn.
  pose proof (Hmap (add_filter (new_crawler (args_left args)) ignore_fn)) as Hleft.
  pose proof (Hmap (new_crawler (args_right args))) as Hright.
  destruct (make_map (add_filter _ _)) as [e|fs_left];
    cbn [mbind result_bind mret result_ret].
  - unfold mbind, M_bind, lift, merge, iterate.
    by rewrite add_filter_twice_stat_files, Hleft.
  - destruct Hleft as (lfis & Hleft & Hroot & Hfilters).
    destruct (make_map (new_crawler _)) as [e|fs_right];
      cbn [mbind result_bind mret result_ret].
    + unfold mbind, M_bind, lift, merge, iterate.
      rewrite add_filter_twice_stat_files, Hleft. cbn [mbind result_bind mret result_ret].
      by rewrite Hright.
    + destruct Hright as (rfis & Hright & Hroot' & Hfilters').
      unfold mbind at 1, M_bind, lift. apply merge_ext; try done.
      * by rewrite !add_filter_root, Hroot, add_filter_root.
      * destruct ignore_fn; simpl; by rewrite ?Hfilters.
Qed.

(** With an ignore list that yields a filter, when [main] gets as far as
    [merge] no pattern has raised on a walked file of the left tree; the
    left crawler yields the walked files of the left tree in which no
    pattern is found, although it holds the filter twice, and the right
    crawler yields every walked file of the right tree, also those a
    pattern is found in. *)
Theorem main_applies_patterns_to_left_tree args ignore_list fs_left fs_right :
  read_ignore_list args = inr ignore_list →
  ignore_list ≠ [] →
  main_crawlers args = inr (fs_left, fs_right) →
  iter_files fs_left
    = inr (filter (not_ignored ignore_list (args_left args))
                  (walked_files (args_left args))) ∧
  (∀ pf, pf ∈ walked_files (args_left args) →
         returns (search_patterns ignore_list
                    (os_path_join (os_path_relpath pf.1 (args_left args)) pf.2))) ∧
  iter_files fs_right = inr (walked_files (args_right args)).
Proof.
  intros Hread Hne. unfold main_crawlers, make_filter_of_ignored_files.
  rewrite Hread. cbn [mbind result_bind mret result_ret].
  rewrite (filter_out_ignored_files_nonempty _ Hne). unfold make_map.
  destruct (stat_files (add_filter _ _)) as [e|lfis] eqn:Hleft;
    cbn [mbind result_bind mret result_ret]; [done|].
  destruct (stat_files (new_crawler _)) as [e|rfis]; cbn [mbind result_bind mret result_ret];
    [done|].
  intros [= <- <-].
  destruct (stat_files_returns_iter_files _ (ex_intro _ lfis Hleft)) as [pfs Hpfs].
  apply iter_files_inr in Hpfs as [Hall _]. simpl (root _) in Hall.
  assert (∀ pf, pf ∈ walked_files (args_left args) →
                returns (search_patterns ignore_list
                           (os_path_join (os_path_relpath pf.1 (args_left args)) pf.2)))
    as Hreturns.
  { intros pf Hpf. destruct (Hall pf Hpf) as [keep Hkeep].
    unfold _filter in Hkeep. simpl in Hkeep. unfold _filter_out in Hkeep.
    destruct (search_patterns _ _) as [e|found]; [done | by eexists]. }
  split_and!; [|done | apply (iter_files_no_filters _ _)].
  apply iter_files_inr. simpl (root _). split.
  - intros pf Hpf. destruct (Hreturns pf Hpf) as [found Hfound].
    unfold _filter. simpl. unfold _filter_out. rewrite Hfound. simpl.
    destruct found; by eexists.
  - apply list_filter_iff. intros pf. unfold kept, not_ignored, _filter. simpl.
    unfold _filter_out. by destruct (search_patterns _ _) as [e|[]].
Qed.

(** When every pattern compiles, the order of the patterns and their
    repetition do not matter: two lists with the same patterns build
    predicates that return, and decide alike. *)
Theorem pattern_order_is_irrelevant ignore_list1 ignore_list2 :
  (∀ pat, pat ∈ ignore_list1 ↔ pat ∈ ignore_list2) →
  (∀ pat, pat ∈ ignore_list1 → compiles pat) →
  ∀ p filename,
    _filter_out ignore_list1 p filename = _filter_out ignore_list2 p filename ∧
    returns (_filter_out ignore_list1 p filename).
Proof.
  intros Hsame Hcompiles p filename. unfold _filter_out.
  destruct (search_patterns_compiles ignore_list1 (os_path_join p filename) Hcompiles)
    as (keep1 & -> & Hkeep1).
  destruct (search_patterns_compiles ignore_list2 (os_path_join p filename))
    as (keep2 & -> & Hkeep2).
  { intros pat Hpat. apply Hcompiles. by apply Hsame. }
  split; [|by eexists]. f_equal.
  destruct keep1, keep2; try done.
  - destruct (proj1 Hkeep2 eq_refl) as (pat & Hin & Hfound).
    assert (true = false) as [=]. apply Hkeep1. exists pat. split; [by apply Hsame | done].
  - destruct (proj1 Hkeep1 eq_refl) as (pat & Hin & Hfound).
    assert (true = false) as [=]. apply Hkeep2. exists pat. split; [by apply Hsame | done].
Qed.
End ignore_facts.

(** ** Counting by key *)

Section count_facts.
Context {A : Type} (key : A → string).
Implicit Types (m : dict nat) (l : list A) (k : string) (ks : list string).

Local Abbreviation count_all m l := (foldl (λ m' x, dict_upd 0 S (key x) m') m l).
Local Abbreviation occurrences l k := (length (filter (λ x, key x = k) l)).

Lemma count_all_NoDup m l : NoDup m.*1 → NoDup (count_all m l).*1.
Proof.
  revert m. induction l as [|x l IH]; intros m Hnd; simpl; [done|].
  apply IH. by apply dict_upd_NoDup.
Qed.

Lemma count_all_keys m l k :
  k ∈ (count_all m l).*1 ↔ k ∈ m.*1 ∨ ∃ x, x ∈ l ∧ key x = k.
Proof.
  revert m. induction l as [|x l IH]; intros m; simpl.
  - split; [by left | intros [?|(? & ?%elem_of_nil & _)]; done].
  - rewrite IH, dict_upd_elem_keys. split.
    + intros [[->|?]|(y & ? & ?)].
      * right. exists x. split; [left | done].
      * by left.
      * right. exists y. split; [by right | done].
    + intros [?|(y & [->|?]%elem_of_cons & Hy)].
      * left. by right.
      * left. by left.
      * right. by exists y.
Qed.

(** The counter of a key grows by the number of entries with that key. *)
Lemma count_all_get m l k :
  default 0 (dict_get k (count_all m l)) = default 0 (dict_get k m) + occurrences l k.
Proof.
  revert m. induction l as [|x l IH]; intros m; simpl; [lia|].
  rewrite IH, filter_cons, dict_get_upd. destruct (decide (key x = k)) as [<-|Hk].
  - rewrite decide_True by done. simpl. lia.
  - rewrite decide_False by done. done.
Qed.

(** Keys that are pairwise distinct and hold the key of every entry split
    the entries: their numbers of occurrences add up to the number of
    entries. *)
Lemma occurrences_sum ks l :
  NoDup ks → (∀ x, x ∈ l → key x ∈ ks) →
  sum_list ((λ k, occurrences l k) <$> ks) = length l.
Proof.
  intros Hnd. revert l. induction Hnd as [|k ks Hk Hnd IH]; intros l Hin.
  - destruct l as [|x l]; [done|]. by destruct (not_elem_of_nil (key x)); apply Hin; left.
  - rewrite fmap_cons. simpl.
    pose proof (Permutation_length (filter_app_complement (λ x, key x = k) l)) as Hlen.
    rewrite length_app in Hlen. rewrite <- Hlen. f_equal.
    rewrite <- (IH (filter (λ x, ¬ key x = k) l)).
    + f_equal. apply Forall_fmap_ext, Forall_forall. intros k' Hk'.
      f_equal. symmetry. apply list_filter_filter_l. intros x -> ->. done.
    + intros x [Hx Hxl]%list_elem_of_filter.
      apply Hin in Hxl as [?|?]%elem_of_cons; [by destruct Hx | done].
Qed.
End count_facts.

(** ** The summary by folder and the outcome of a run *)

Section summary_facts.
Context `{OsPath, Str}.
Implicit Types (bucket : list FileInfo) (out : list string) (b : buckets).

Lemma sorted_folders_Permutation (folders : dict nat) : sorted_folders folders ≡ₚ folders.*1.
Proof.
  unfold sorted_folders. rewrite sorted_keyed_Permutation, <- list_fmap_compose.
  by rewrite list_fmap_id.
Qed.

Lemma sorted_folders_StronglySorted (folders : dict nat) :
  StronglySorted (λ f1 f2, String.le (str_lower f1) (str_lower f2)) (sorted_folders folders).
Proof.
  unfold sorted_folders.
  assert (Forall (λ x : string * string, x.1 = str_lower x.2)
                 (sorted_keyed ((λ k, (str_lower k, k)) <$> folders.*1))) as Hkeys.
  { rewrite sorted_keyed_Permutation. apply Forall_fmap, Forall_true. done. }
  pose proof (sorted_keyed_StronglySorted ((λ k, (str_lower k, k)) <$> folders.*1)) as Hs.
  induction Hs as [|x l Hl IH Hx]; [constructor|].
  apply Forall_cons in Hkeys as [Hk Hkeys]. rewrite fmap_cons. constructor; [by apply IH|].
  apply Forall_fmap. apply Forall_forall. intros y Hy.
  rewrite Forall_forall in Hx, Hkeys. specialize (Hx y Hy). unfold key_le in Hx.
  simpl. by rewrite <- Hk, <- (Hkeys y Hy).
Qed.

Lemma folder_count_Permutation bucket1 bucket2 folder :
  bucket1 ≡ₚ bucket2 → folder_count bucket1 folder = folder_count bucket2 folder.
Proof. intros Hp. unfold folder_count. by rewrite Hp. Qed.

Lemma count_folders_get bucket folder :
  default 0 (dict_get folder (count_folders bucket)) = folder_count bucket folder.
Proof. unfold count_folders. by rewrite (count_all_get path [] bucket folder). Qed.

Lemma render_bucket_summarize header bucket out :
  render_bucket header true (PyFileInfo <$> bucket) out
  = (out ++ [""; header]
         ++ (folder_line bucket <$> sorted_folders (count_folders (sorted_files bucket))),
     inr tt).
Proof.
  unfold render_bucket. unfold mbind at 1 2 3 4, M_bind, print, lift.
  rewrite sorted_bucket_files, render_entries_summarize.
  fold (count_folders (sorted_files bucket)).
  unfold render_folders. fold (sorted_folders (count_folders (sorted_files bucket))).
  rewrite for_each_print. rewrite <- !(assoc_L (++)). do 2 f_equal. simpl. do 2 f_equal.
  apply list_fmap_ext. intros i folder _.
  unfold folder_line.
  by rewrite count_folders_get, (folder_count_Permutation _ _ _ (sorted_files_Permutation bucket)).
Qed.

(** With [summarize] the listing of the left-only or right-only bucket is
    one line per folder that holds a record of the bucket: every such folder
    once, the folders ordered by the [lower()] of their name, each with the
    number of records of the bucket in it, and these numbers add up to the
    size of the bucket. *)
Theorem summary_counts_every_record header bucket out :
  ∃ folders,
    render_bucket header true (PyFileInfo <$> bucket) out
    = (out ++ [""; header] ++ (folder_line bucket <$> folders), inr tt) ∧
    NoDup folders ∧
    (∀ folder, folder ∈ folders ↔ ∃ fi, fi ∈ bucket ∧ path fi = folder) ∧
    StronglySorted (λ f1 f2, String.le (str_lower f1) (str_lower f2)) folders ∧
    sum_list (folder_count bucket <$> folders) = length bucket.
Proof.
  exists (sorted_folders (count_folders (sorted_files bucket))).
  pose proof (sorted_folders_Permutation (count_folders (sorted_files bucket))) as Hperm.
  assert (NoDup (count_folders (sorted_files bucket)).*1) as Hnd.
  { apply (count_all_NoDup path). constructor. }
  assert (∀ folder, folder ∈ (count_folders (sorted_files bucket)).*1
                    ↔ ∃ fi, fi ∈ bucket ∧ path fi = folder) as Hkeys.
  { intros folder. unfold count_folders. rewrite (count_all_keys path). split.
    - intros [?%elem_of_nil|(fi & Hfi & ?)]; [done|]. exists fi.
      by rewrite <- (sorted_files_Permutation bucket).
    - intros (fi & Hfi & ?). right. exists fi.
      by rewrite (sorted_files_Permutation bucket). }
  split_and!.
  - apply render_bucket_summarize.
  - by rewrite Hperm.
  - intros folder. by rewrite Hperm.
  - apply sorted_folders_StronglySorted.
  - rewrite Hperm. apply (occurrences_sum path); [done|].
    intros fi Hfi. apply Hkeys. by exists fi.
Qed.

Lemma render_bucket_records header summarize bucket out :
  render_bucket header summarize (PyFileInfo <$> bucket) out
  = (out ++ bucket_lines header summarize bucket, inr tt).
Proof.
  unfold bucket_lines. destruct summarize.
  - apply render_bucket_summarize.
  - apply render_bucket_files.
Qed.

Lemma render_bucket_empty header summarize out :
  render_bucket header summarize [] out = (out ++ [""; header], inr tt).
Proof.
  destruct summarize; unfold render_bucket, mbind, M_bind, print, lift; simpl;
    by rewrite <- !(assoc_L (++)).
Qed.

Lemma render_if_records (flag : bool) header summarize bucket out :
  (if flag then render_bucket header summarize (PyFileInfo <$> bucket) else mret tt) out
  = (out ++ when_shown flag (bucket_lines header summarize bucket), inr tt).
Proof.
  destruct flag; [apply render_bucket_records|]. simpl. by rewrite app_nil_r.
Qed.

(** The report of lines 36-94, line by line: the left-only block and the
    right-only block when they are asked for, the header of the both block
    when it is asked for, and the five totals. The run raises exactly when
    the both bucket is to be shown and is not empty; it is then
    [AttributeError], the header of the both block is the last line
    printed, and neither an entry of the both bucket nor a total is
    printed. *)
Theorem merge_raises_only_on_shared_files left right sl sr sb sm out :
  let b := merge_buckets left right in
  merge_enumerations left right sl sr sb sm out
  = (out ++ when_shown sl (bucket_lines "Files only in left folder:" sm (left_only b))
         ++ when_shown sr (bucket_lines "Files only in right folder:" sm (right_only b))
         ++ when_shown sb [""; "Files in both folders:"]
         ++ (match merge_outcome b sb with
             | inr _ => totals_lines b (total_by_len left right)
             | inl _ => []
             end),
     merge_outcome b sb) ∧
  (merge_outcome b sb = inl AttributeError ↔ sb = true ∧ both b ≠ []).
Proof.
  intros b. unfold merge_enumerations. fold b. unfold mbind at 1 2 3, M_bind.
  rewrite (render_if_records sl), (render_if_records sr).
  unfold merge_outcome. destruct sb; simpl.
  - destruct (both b) as [|s l] eqn:Hboth.
    + rewrite render_bucket_empty, print_totals_lines. split.
      * by rewrite <- !(assoc_L (++)).
      * split; [done | by intros [_ ?]].
    + rewrite (render_bucket_strs _ _ s l), (bool_decide_false (s :: l = [])) by done.
      simpl. split; [by rewrite <- !(assoc_L (++)) | done].
  - rewrite print_totals_lines. split.
    + by rewrite <- !(assoc_L (++)).
    + split; [done | by intros [? _]].
Qed.
End summary_facts.

(** ** Where the records of the buckets come from *)

Section bucket_facts.
Context `{OsPath}.
Implicit Types (left right e : enumeration) (fi : FileInfo) (k : string).

Lemma entry_slots_seen left right k l r :
  (k, (l, r)) ∈ build_file_map left right →
  (∀ fi, l = Some fi → fi ∈ enum_files left) ∧ (∀ fi, r = Some fi → fi ∈ enum_files right).
Proof.
  intros Hin. destruct (build_file_map_inv left right) as (_ & _ & Hslots).
  destruct (Hslots _ _ Hin) as [Hl Hr]. simpl in *.
  split; intros fi ->; [by destruct Hl | by destruct Hr].
Qed.

(** Every record of the left-only bucket was enumerated from the left tree
    under a name the right tree does not have, every record of the
    right-only bucket from the right tree under a name the left tree does
    not have, and every path of the both bucket is the joined path of a
    record of the right tree whose name the left tree has as well. *)
Theorem bucket_entries_come_from_their_tree left right :
  let b := merge_buckets left right in
  (∀ fi, fi ∈ left_only b →
         fi ∈ enum_files left
         ∧ _get_canonical_name fi (enum_root left) ∉ canonical_names right) ∧
  (∀ fi, fi ∈ right_only b →
         fi ∈ enum_files right
         ∧ _get_canonical_name fi (enum_root right) ∉ canonical_names left) ∧
  (∀ s, s ∈ both b →
        ∃ fi, fi ∈ enum_files right ∧ s = os_path_join (path fi) (file fi)
              ∧ _get_canonical_name fi (enum_root right) ∈ canonical_names left).
Proof.
  simpl. split_and!.
  - intros fi (k & Hin)%elem_of_left_only.
    split; [by apply (entry_slots_seen _ _ _ _ _ Hin)|].
    rewrite (entry_key_left _ _ _ _ _ Hin).
    rewrite <- (file_map_slot_right _ _ _ _ Hin). simpl. by intros [? [=]].
  - intros fi (k & Hin)%elem_of_right_only.
    split; [by apply (entry_slots_seen _ _ _ _ _ Hin)|].
    rewrite (entry_key_right _ _ _ _ _ Hin).
    rewrite <- (file_map_slot_left _ _ _ _ Hin). simpl. by intros [? [=]].
  - intros s (k & l & r & Hin & ->)%elem_of_both. exists r. split_and!.
    + by apply (entry_slots_seen _ _ _ _ _ Hin).
    + done.
    + rewrite (entry_key_right _ _ _ _ _ Hin).
      apply (file_map_slot_left _ _ _ _ Hin). simpl. by eexists.
Qed.

Lemma fmap_nil_iff {A B} (f : A → B) (l : list A) : f <$> l = [] ↔ l = [].
Proof. split; [apply fmap_nil_inv | by intros ->]. Qed.

Lemma difference_empty_iff (X Y : gset string) : X ∖ Y = ∅ ↔ X ⊆ Y.
Proof.
  split.
  - intros Hempty k Hk. destruct (decide (k ∈ Y)) as [|Hn]; [done|].
    assert (k ∈ X ∖ Y) as Hd by (by apply elem_of_difference).
    rewrite Hempty in Hd. by apply not_elem_of_empty in Hd.
  - intros Hsub. apply set_eq. intros k. rewrite elem_of_difference. split.
    + intros [Hk Hn]. destruct Hn. by apply Hsub.
    + by intros ?%not_elem_of_empty.
Qed.

Lemma names_nil_iff (names : list string) : list_to_set names =@{gset string} ∅ ↔ names = [].
Proof.
  split; [|by intros ->]. destruct names as [|k names]; [done|].
  intros Hempty. assert (k ∈@{gset string} ∅) as Hk; [|by apply not_elem_of_empty in Hk].
  rewrite <- Hempty. apply elem_of_list_to_set. left.
Qed.

(** A bucket is empty exactly when set semantics say so: left-only when
    every name of the left tree is a name of the right tree, right-only the
    other way round, both when the trees share no name. A tree reconciled
    with itself leaves the first two buckets empty and puts every name in the
    third. *)
Theorem empty_buckets left right e :
  (left_only (merge_buckets left right) = []
   ↔ canonical_names left ⊆ canonical_names right) ∧
  (right_only (merge_buckets left right) = []
   ↔ canonical_names right ⊆ canonical_names left) ∧
  (both (merge_buckets left right) = []
   ↔ canonical_names left ## canonical_names right) ∧
  left_only (merge_buckets e e) = [] ∧
  right_only (merge_buckets e e) = [] ∧
  list_to_set (both_names e (merge_buckets e e)) =@{gset string} canonical_names e ∧
  length (both (merge_buckets e e)) = size (canonical_names e).
Proof.
  assert (∀ l r, left_only (merge_buckets l r) = [] ↔ canonical_names l ⊆ canonical_names r)
    as Hleft.
  { intros l r. rewrite <- (fmap_nil_iff (λ fi, _get_canonical_name fi (enum_root l))).
    fold (left_only_names l (merge_buckets l r)).
    rewrite <- names_nil_iff, left_only_names_set. apply difference_empty_iff. }
  assert (∀ l r, right_only (merge_buckets l r) = [] ↔ canonical_names r ⊆ canonical_names l)
    as Hright.
  { intros l r. rewrite <- (fmap_nil_iff (λ fi, _get_canonical_name fi (enum_root r))).
    fold (right_only_names r (merge_buckets l r)).
    rewrite <- names_nil_iff, right_only_names_set. apply difference_empty_iff. }
  split_and!.
  - apply Hleft.
  - apply Hright.
  - rewrite <- (fmap_nil_iff (λ s, os_path_relpath s (enum_root right))).
    fold (both_names right (merge_buckets left right)).
    rewrite <- names_nil_iff, both_names_set. symmetry. apply disjoint_intersection_L.
  - by apply Hleft.
  - by apply Hright.
  - rewrite both_names_set. apply (idemp_L (∩)).
  - pose proof (total_by_sum_len e e) as Hsum. unfold total_by_sum in Hsum.
    rewrite (proj2 (Hleft e e)), (proj2 (Hright e e)) in Hsum by done. simpl in Hsum.
    rewrite Hsum, total_by_len_size. f_equal. apply (idemp_L (∪)).
Qed.
End bucket_facts.

(** ** A failing os.stat *)

(** When [os.stat] fails on a file of the left tree, or on a file of the
    right tree after the left tree was enumerated, [merge] ends with that
    [OSError] and has printed nothing: there is no partial report. The same
    holds for an exception a filter raises. *)
Theorem stat_failure_aborts_without_report `{OsPath, Str, FileSystem}
    (left right : FolderCrawler) (sl sr sb sm : bool) (out : list string) (e : exn) :
  stat_files left = inl e ∨ (∃ fis, stat_files left = inr fis) ∧ stat_files right = inl e →
  merge left right sl sr sb sm out = (out, inl e).
Proof.
  unfold merge, iterate, mbind at 1 3, M_bind, lift.
  intros [Hleft|[[fis Hleft] Hright]]; rewrite Hleft; [done|].
  cbn [mbind result_bind mret result_ret]. by rewrite Hright.
Qed.

Lemma stat_failure_aborts_without_report_witness :
  @merge (Posix.os_path Scenario.cwd) Posix.ascii_str (Posix.file_system Scenario.padded_disk)
    (new_crawler "L") (new_crawler "R") true true false false []
  = ([], inl (OSError "R/gone")).
Proof.
  apply (@stat_failure_aborts_without_report (Posix.os_path Scenario.cwd) Posix.ascii_str
           (Posix.file_system Scenario.padded_disk)).
  right. split; [by eexists | reflexivity].
Defined.

(** ** Witnesses on the scenario *)

Lemma make_map_stores_canonical_names_witness :
  ∃ self',
    @make_map (Posix.os_path Scenario.cwd) (Posix.file_system Scenario.disk) (new_crawler "R")
    = inr self' ∧
    root self' = "R" ∧
    filters self' = [] ∧
    NoDup (file_map self').*1 ∧
    list_to_set (file_map self').*1
      =@{gset string} @canonical_names (Posix.os_path Scenario.cwd) Scenario.right_tree ∧
    (∀ k, dict_get k (file_map self')
          = last (filter (λ fi, @_get_canonical_name (Posix.os_path Scenario.cwd) fi "R" = k)
                         (enum_files Scenario.right_tree))) ∧
    (length (file_map self') ≤ 2)%nat.
Proof.
  apply (@make_map_stores_canonical_names (Posix.os_path Scenario.cwd)
           (Posix.file_system Scenario.disk) (new_crawler "R")
           (enum_files Scenario.right_tree)).
  reflexivity.
Defined.

Lemma dump_prints_until_stat_fails_witness :
  @dump (Posix.os_path Scenario.cwd) (Posix.file_system Scenario.padded_disk)
    (new_crawler "R") []
  = (["R/c.txt"], inl (OSError "R/gone")).
Proof.
  apply (proj1 (proj2 (@dump_prints_until_stat_fails (Posix.os_path Scenario.cwd)
                         (Posix.file_system Scenario.padded_disk) (new_crawler "R") []))
           [("R", "c.txt"); ("R", "gone"); ("R", "d.txt")]
           [("R", "c.txt")] ("R", "gone") [("R", "d.txt")]).
  - reflexivity.
  - reflexivity.
  - constructor; [by eexists | constructor].
  - reflexivity.
Defined.

Lemma ignore_patterns_are_stripped_witness :
  @read_ignore_list Posix.ascii_str (Posix.file_system Scenario.padded_disk)
    Scenario.padded_args
  = inr ["b.txt"; "c.txt"] ∧
  Forall (λ pat, pat ≠ "") ["b.txt"; "c.txt"].
Proof.
  split; [reflexivity|].
  apply (proj1 (@ignore_patterns_are_stripped Posix.ascii_str
                  (Posix.file_system Scenario.padded_disk)
                  Scenario.padded_args ["b.txt"; "c.txt"] eq_refl)).
Defined.

Lemma unreadable_ignore_list_aborts_witness :
  @main_crawlers (Posix.os_path Scenario.cwd) Posix.literal_regex Posix.ascii_str
    (Posix.file_system Scenario.disk) Scenario.unreadable_args
  = inl (OSError "nowhere.txt") ∧
  @main (Posix.os_path Scenario.cwd) Posix.literal_regex Posix.ascii_str
    (Posix.file_system Scenario.disk) Scenario.unreadable_args []
  = ([], inl (OSError "nowhere.txt")).
Proof.
  apply (@unreadable_ignore_list_aborts (Posix.os_path Scenario.cwd) Posix.literal_regex
           Posix.ascii_str (Posix.file_system Scenario.disk) Scenario.unreadable_args
           "nowhere.txt" []).
  - reflexivity.
  - discriminate.
  - reflexivity.
Defined.

Lemma main_is_merge_of_crawlers_witness :
  Scenario.run (Scenario.args_of "L" "R" true true false (Some "ignore.txt"))
  = @merge (Posix.os_path Scenario.cwd) Posix.ascii_str (Posix.file_system Scenario.disk)
      (add_filter (add_filter (new_crawler "L") (PyFunc Scenario.ignore_fn))
                  (PyFunc Scenario.ignore_fn))
      (new_crawler "R") true true false false [].
Proof.
  apply (@main_is_merge_of_crawlers (Posix.os_path Scenario.cwd) Posix.literal_regex
           Posix.ascii_str (Posix.file_system Scenario.disk)
           (Scenario.args_of "L" "R" true true false (Some "ignore.txt")) ["b.txt"] []).
  reflexivity.
Defined.

Lemma main_applies_patterns_to_left_tree_witness :
  @iter_files (Posix.os_path Scenario.cwd) (Posix.file_system Scenario.disk)
    Scenario.filtered_left
  = inr (filter (@not_ignored (Posix.os_path Scenario.cwd) Posix.literal_regex
                   ["b.txt"] "L")
                (@walked_files (Posix.file_system Scenario.disk) "L")) ∧
  (∀ pf, pf ∈ @walked_files (Posix.file_system Scenario.disk) "L" →
         returns (@search_patterns Posix.literal_regex ["b.txt"]
                    (Posix.join (Posix.relpath Scenario.cwd pf.1 "L") pf.2))) ∧
  @iter_files (Posix.os_path Scenario.cwd) (Posix.file_system Scenario.disk)
    Scenario.unfiltered_right
  = inr (@walked_files (Posix.file_system Scenario.disk) "R").
Proof.
  apply (@main_applies_patterns_to_left_tree (Posix.os_path Scenario.cwd)
           Posix.literal_regex Posix.ascii_str (Posix.file_system Scenario.disk)
           (Scenario.args_of "L" "R" true true false (Some "ignore.txt")) ["b.txt"]).
  - reflexivity.
  - discriminate.
  - reflexivity.
Defined.

Lemma pattern_order_is_irrelevant_witness :
  @_filter_out (Posix.os_path Scenario.cwd) Scenario.regex ["b.txt"; "\.tmp$"]
    "shared" "b.txt"
  = @_filter_out (Posix.os_path Scenario.cwd) Scenario.regex ["\.tmp$"; "b.txt"; "\.tmp$"]
      "shared" "b.txt" ∧
  returns (@_filter_out (Posix.os_path Scenario.cwd) Scenario.regex ["b.txt"; "\.tmp$"]
             "shared" "b.txt").
Proof.
  apply (@pattern_order_is_irrelevant (Posix.os_path Scenario.cwd) Scenario.regex
           ["b.txt"; "\.tmp$"] ["\.tmp$"; "b.txt"; "\.tmp$"]).
  - intros pat. rewrite !elem_of_cons, !elem_of_nil. tauto.
  - intros pat [->|[->|[]%elem_of_nil]%elem_of_cons]%elem_of_cons s; by eexists.
Defined.
